(** * core-js-101, objects tasks: Rectangle, the JSON bridge and the
      CSS selector builder (src/05-objects-tasks.js)

    The JavaScript objects of the source file are embedded as follows.

    - A builder object (the literal [cssSelectorBuilder] and every object
      [clear()] produces) is a record [fragset] of its data properties; its
      methods are the same functions on every such object, so they are
      functions of the address [this].
    - Objects live in a store ([list fragset]) and are named by their
      address: the methods mutate [this] in place and hand the same object
      back, so two names of one object see each other's writes.
    - A method is a computation [M A] over the store that returns, throws
      or is stuck on an address that names no object (no JavaScript
      reference is ever in that case).
    - An array property ([nameCl], [nameAt], [namePC]) is owned by one
      object: [clear] and [stringify] install fresh arrays and [push] is the
      only write, so the array is a field of the record.

    [Rectangle] and the JSON bridge come first, the builder after; the
    properties follow the definitions. *)

From Stdlib Require Import ZArith Lia Ascii Decimal DecimalString DecimalFacts
  DecimalZ DecimalNat.
From stdpp Require Import base list strings functions.

Local Open Scope Z_scope.
Local Open Scope nat_scope.

(** ** Rectangle *)

(** JavaScript numbers are taken with their multiplication as a parameter:
    [Rectangle] only stores its arguments and multiplies them. *)
Section RectangleObject.
Context {number : Type}.
Variable mul : number -> number -> number.

(** The object literal [r]: two data properties and a method. The method
    is a closure: it holds the parameters of the call that built it. *)
Record rectangle : Type := {
  width : number;
  height : number;
  getArea : unit -> number
}.

Definition Rectangle (width height : number) : rectangle :=
  {| width := width;
     height := height;
     getArea := fun _ => mul width height |}.

(** [r.width = v] and [r.height = v]. *)
Inductive assignment : Type :=
  | SetWidth (v : number)
  | SetHeight (v : number).

Definition assign (r : rectangle) (a : assignment) : rectangle :=
  match a with
  | SetWidth v => {| width := v; height := height r; getArea := getArea r |}
  | SetHeight v => {| width := width r; height := v; getArea := getArea r |}
  end.

Definition assign_all (l : list assignment) (r : rectangle) : rectangle :=
  fold_left assign l r.

End RectangleObject.

Arguments rectangle number : clear implicits.
Arguments assignment number : clear implicits.

(** ** getJSON and fromJSON *)

(** [getJSON] and [fromJSON] hand their arguments to [JSON.stringify],
    [JSON.parse], [Object.create] and [Object.assign]. These belong to the
    language, not to the source file; they are modelled here after
    ECMA-262, on the values below.

    - A number is an integer (a JavaScript number is exact on the safe
      integers); fractional and non-finite numbers are outside the model,
      and so is a JSON text that holds one: [JSON_parse] answers [None]
      for a text JavaScript rejects or for one outside the model.
    - A string is a sequence of code units below 256.
    - An object is its prototype and its own enumerable data properties,
      in property order; a prototype is known by name only, and declares
      no [toJSON], no accessor and no read-only property.
    - Values are trees: no object is reached twice. *)
Module JSON.

(** Identity of a prototype object: [Object.prototype], which the objects
    [JSON.parse] builds have, or a named one, as [Circle.prototype]. *)
Inductive prototype : Type :=
  | Object_prototype
  | Prototype (name : string).

#[warnings="-register-all"]
Inductive value : Type :=
  | Undefined
  | Null
  | Bool (b : bool)
  | Number (n : Z)
  | Str (s : string)
  | Array (elements : list value)
  | Object (proto : prototype) (fields : list (string * value))
  | Function (name : string).

Definition dquote : ascii := "034"%char.
Definition backslash : ascii := "092"%char.

(** *** JSON.stringify *)

Definition hex_char (n : N) : ascii :=
  ascii_of_N (if (n <? 10)%N then 48 + n else 87 + n)%N.

(** QuoteJSONString, one code unit. *)
Definition escape_char (c : ascii) : string :=
  if Ascii.eqb c dquote then String backslash (String dquote "")
  else if Ascii.eqb c backslash then String backslash (String backslash "")
  else if Ascii.eqb c "008" then String backslash "b"
  else if Ascii.eqb c "009" then String backslash "t"
  else if Ascii.eqb c "010" then String backslash "n"
  else if Ascii.eqb c "012" then String backslash "f"
  else if Ascii.eqb c "013" then String backslash "r"
  else if (N_of_ascii c <? 32)%N then
    String backslash
      (String "u" (String "0" (String "0"
         (String (hex_char (N_of_ascii c / 16))
            (String (hex_char (N_of_ascii c mod 16)) "")))))
  else String c "".

Fixpoint escape (s : string) : string :=
  match s with
  | "" => ""
  | String c s => escape_char c +:+ escape s
  end.

Definition quote (s : string) : string :=
  String dquote (escape s +:+ String dquote "").

(** Number::toString on an integer: decimal digits, ['-'] first when
    negative. *)
Definition number_to_string (n : Z) : string :=
  NilEmpty.string_of_int (Z.to_int n).

Fixpoint join (sep : string) (l : list string) : string :=
  match l with
  | [] => ""
  | [x] => x
  | x :: l => x +:+ sep +:+ join sep l
  end.

(** SerializeJSONProperty, without replacer or indentation. [None] is the
    [undefined] JavaScript answers for a value with no JSON form; in an
    array such an element is written [null], in an object the property is
    left out. *)
Fixpoint JSON_stringify (v : value) : option string :=
  match v with
  | Undefined | Function _ => None
  | Null => Some "null"
  | Bool b => Some (if b then "true" else "false")
  | Number n => Some (number_to_string n)
  | Str s => Some (quote s)
  | Array l =>
      Some ("[" +:+ join "," (map (fun x => default "null" (JSON_stringify x)) l)
            +:+ "]")
  | Object _ fields =>
      Some ("{" +:+ join ","
              (omap (fun kv => match JSON_stringify kv.2 with
                               | Some s => Some (quote kv.1 +:+ ":" +:+ s)
                               | None => None
                               end) fields) +:+ "}")
  end.

(** *** JSON.parse *)

Definition is_ws (c : ascii) : bool :=
  Ascii.eqb c " " || Ascii.eqb c "009" || Ascii.eqb c "010" || Ascii.eqb c "013".

Fixpoint skip_ws (s : string) : string :=
  match s with
  | String c s' => if is_ws c then skip_ws s' else s
  | "" => ""
  end.

Definition digit (c : ascii) : option (uint -> uint) :=
  if Ascii.eqb c "0" then Some D0 else
  if Ascii.eqb c "1" then Some D1 else
  if Ascii.eqb c "2" then Some D2 else
  if Ascii.eqb c "3" then Some D3 else
  if Ascii.eqb c "4" then Some D4 else
  if Ascii.eqb c "5" then Some D5 else
  if Ascii.eqb c "6" then Some D6 else
  if Ascii.eqb c "7" then Some D7 else
  if Ascii.eqb c "8" then Some D8 else
  if Ascii.eqb c "9" then Some D9 else None.

Fixpoint read_digits (s : string) : uint * string :=
  match s with
  | String c s' =>
      match digit c with
      | Some k => let r := read_digits s' in (k r.1, r.2)
      | None => (Nil, s)
      end
  | "" => (Nil, "")
  end.

(** An optional ['-'], then digits with no leading zero. *)
Definition parse_number (s : string) : option (Z * string) :=
  let (neg, s1) :=
    match s with
    | String c s' => if Ascii.eqb c "-" then (true, s') else (false, s)
    | "" => (false, s)
    end in
  let r := read_digits s1 in
  if uint_beq (unorm r.1) r.1
  then Some (Z.of_int (if neg : bool then Neg r.1 else Pos r.1), r.2)
  else None.

Definition hex_digit (c : ascii) : option N :=
  let n := N_of_ascii c in
  if (48 <=? n)%N && (n <=? 57)%N then Some (n - 48)%N else
  if (97 <=? n)%N && (n <=? 102)%N then Some (n - 87)%N else
  if (65 <=? n)%N && (n <=? 70)%N then Some (n - 55)%N else None.

Definition hex4 (a b c d : ascii) : option N :=
  match hex_digit a, hex_digit b, hex_digit c, hex_digit d with
  | Some a, Some b, Some c, Some d => Some (((a * 16 + b) * 16 + c) * 16 + d)%N
  | _, _, _, _ => None
  end.

Definition unescape (e : ascii) : option ascii :=
  if Ascii.eqb e dquote then Some dquote else
  if Ascii.eqb e backslash then Some backslash else
  if Ascii.eqb e "/" then Some "/"%char else
  if Ascii.eqb e "b" then Some "008"%char else
  if Ascii.eqb e "f" then Some "012"%char else
  if Ascii.eqb e "n" then Some "010"%char else
  if Ascii.eqb e "r" then Some "013"%char else
  if Ascii.eqb e "t" then Some "009"%char else None.

Definition cons_char (c : ascii) (r : option (string * string))
    : option (string * string) :=
  match r with Some (s, rest) => Some (String c s, rest) | None => None end.

(** A string, after its opening quote. *)
Fixpoint parse_string (s : string) : option (string * string) :=
  match s with
  | "" => None
  | String c s1 =>
      if Ascii.eqb c dquote then Some ("", s1) else
      if Ascii.eqb c backslash then
        match s1 with
        | String e s2 =>
            if Ascii.eqb e "u" then
              match s2 with
              | String h1 (String h2 (String h3 (String h4 s3))) =>
                  match hex4 h1 h2 h3 h4 with
                  | Some code =>
                      if (code <? 256)%N
                      then cons_char (ascii_of_N code) (parse_string s3)
                      else None
                  | None => None
                  end
              | _ => None
              end
            else
              match unescape e with
              | Some c' => cons_char c' (parse_string s2)
              | None => None
              end
        | "" => None
        end
      else if (N_of_ascii c <? 32)%N then None
      else cons_char c (parse_string s1)
  end.

Fixpoint strip (p s : string) : option string :=
  match p with
  | "" => Some s
  | String a p' =>
      match s with
      | String b s' => if Ascii.eqb a b then strip p' s' else None
      | "" => None
      end
  end.

(** Writing a data property: over the value of the property of that name
    if there is one, after the last property if not. *)
Definition set_field (k : string) (v : value) (fields : list (string * value))
    : list (string * value) :=
  (fix go (fs : list (string * value)) :=
     match fs with
     | [] => [(k, v)]
     | (k', v') :: fs =>
         if String.eqb k k' then (k', v) :: fs else (k', v') :: go fs
     end) fields.

Definition set_fields (src fields : list (string * value))
    : list (string * value) :=
  fold_left (fun fs kv => set_field kv.1 kv.2 fs) src fields.

(** The elements of an array, after ['['], when there is at least one. *)
Fixpoint parse_elements (pv : string -> option (value * string)) (n : nat)
    (s : string) : option (list value * string) :=
  match n with
  | 0 => None
  | S n =>
      match pv s with
      | Some (v, s1) =>
          match skip_ws s1 with
          | String c s2 =>
              if Ascii.eqb c "," then
                match parse_elements pv n s2 with
                | Some (vs, s3) => Some (v :: vs, s3)
                | None => None
                end
              else if Ascii.eqb c "]" then Some ([v], s2)
              else None
          | "" => None
          end
      | None => None
      end
  end.

(** The members of an object, after ['{'], when there is at least one. *)
Fixpoint parse_members (pv : string -> option (value * string)) (n : nat)
    (s : string) : option (list (string * value) * string) :=
  match n with
  | 0 => None
  | S n =>
      match strip (String dquote "") (skip_ws s) with
      | Some s1 =>
          match parse_string s1 with
          | Some (k, s2) =>
              match strip ":" (skip_ws s2) with
              | Some s3 =>
                  match pv s3 with
                  | Some (v, s4) =>
                      match skip_ws s4 with
                      | String c s5 =>
                          if Ascii.eqb c "," then
                            match parse_members pv n s5 with
                            | Some (ms, s6) => Some ((k, v) :: ms, s6)
                            | None => None
                            end
                          else if Ascii.eqb c "}" then Some ([(k, v)], s5)
                          else None
                      | "" => None
                      end
                  | None => None
                  end
              | None => None
              end
          | None => None
          end
      | None => None
      end
  end.

(** One value. [fuel] bounds the nesting and the number of elements at a
    level; the length of the text is enough for both. *)
Fixpoint parse_value (fuel : nat) (s : string) : option (value * string) :=
  match fuel with
  | 0 => None
  | S fuel =>
      match skip_ws s with
      | "" => None
      | String c rest as s' =>
          if Ascii.eqb c "n" then
            match strip "ull" rest with
            | Some r => Some (Null, r)
            | None => None
            end
          else if Ascii.eqb c "t" then
            match strip "rue" rest with
            | Some r => Some (Bool true, r)
            | None => None
            end
          else if Ascii.eqb c "f" then
            match strip "alse" rest with
            | Some r => Some (Bool false, r)
            | None => None
            end
          else if Ascii.eqb c dquote then
            match parse_string rest with
            | Some (str, r) => Some (Str str, r)
            | None => None
            end
          else if Ascii.eqb c "[" then
            match strip "]" (skip_ws rest) with
            | Some r => Some (Array [], r)
            | None =>
                match parse_elements (parse_value fuel) fuel rest with
                | Some (vs, r) => Some (Array vs, r)
                | None => None
                end
            end
          else if Ascii.eqb c "{" then
            match strip "}" (skip_ws rest) with
            | Some r => Some (Object Object_prototype [], r)
            | None =>
                match parse_members (parse_value fuel) fuel rest with
                | Some (ms, r) =>
                    Some (Object Object_prototype (set_fields ms []), r)
                | None => None
                end
            end
          else
            match parse_number s' with
            | Some (n, r) => Some (Number n, r)
            | None => None
            end
      end
  end.

(** [None]: SyntaxError (or a text outside the model). *)
Definition JSON_parse (text : string) : option value :=
  match parse_value (String.length text) text with
  | Some (v, rest) => if String.eqb (skip_ws rest) "" then Some v else None
  | None => None
  end.

(** *** Object.create and Object.assign *)

Definition Object_create (proto : prototype) : value := Object proto [].

Definition index_key (i : nat) : string :=
  NilEmpty.string_of_uint (Nat.to_uint i).

(** The own enumerable string-keyed properties of a value ([ToObject] of
    it, for a primitive): the fields of an object, the elements of an
    array and the code units of a string under their indices. *)
Definition own_enumerable (v : value) : list (string * value) :=
  match v with
  | Object _ fields => fields
  | Array l => imap (fun i x => (index_key i, x)) l
  | Str s =>
      imap (fun i c => (index_key i, Str (String c "")))
           (String.list_ascii_of_string s)
  | _ => []
  end.

(** [Object.assign(target, source)], one source; every property is written
    as a data property of the target. *)
Definition Object_assign (target source : value) : value :=
  match target with
  | Object p fields => Object p (set_fields (own_enumerable source) fields)
  | _ => target
  end.


(** *** The two functions of the source file *)

Definition getJSON (obj : value) : option string := JSON_stringify obj.

Definition fromJSON (proto : prototype) (json : string) : option value :=
  match JSON_parse json with
  | Some parsed =>
      let a := Object_create proto in
      let a := Object_assign a parsed in
      Some a
  | None => None
  end.

(** *** JSON data *)

Definition safe_integer (n : Z) : bool :=
  ((- 2 ^ 53 <? n) && (n <? 2 ^ 53))%Z.


Definition unique_keys (fields : list (string * value)) : bool :=
  bool_decide (NoDup fields.*1).









(** *** What JSON keeps of any value *)



Definition is_function (v : value) : bool :=
  match v with Function _ => true | _ => false end.

(** Values the model is exact on: numbers are safe integers, an object has
    one field of a name, and no method [toJSON], which [JSON.stringify]
    would call. *)
Fixpoint exact (v : value) : bool :=
  match v with
  | Number n => safe_integer n
  | Array l => forallb exact l
  | Object _ fields =>
      unique_keys fields
      && forallb (fun kv => exact kv.2
                            && negb (String.eqb kv.1 "toJSON"
                                     && is_function kv.2)) fields
  | _ => true
  end.

End JSON.

(** ** The store and the method monad *)

(** The two [throw new Error(...)] of the builder, told apart by message. *)
Inductive error : Type :=
  | DuplicateFragmentError
  | OutOfOrderError.

Definition error_message (e : error) : string :=
  match e with
  | DuplicateFragmentError =>
      "Element, id and pseudo-element should not occur more then one time inside the selector"
  | OutOfOrderError =>
      "Selector parts should be arranged in the following order: element, id, class, attribute, pseudo-class, pseudo-element"
  end.

Inductive outcome (A : Type) : Type :=
  | Return (a : A)
  | Throw (e : error).
Arguments Return {A} a.
Arguments Throw {A} e.

(** Data properties of a builder object. *)
Record fragset : Type := Fragset {
  isBasic : bool;
  nameEl : string;
  nameID : string;
  nameCl : list string;
  nameAt : list string;
  namePC : list string;
  namePE : string
}.

Definition set_isBasic (v : bool) (o : fragset) : fragset :=
  Fragset v (nameEl o) (nameID o) (nameCl o) (nameAt o) (namePC o) (namePE o).
Definition set_nameEl (v : string) (o : fragset) : fragset :=
  Fragset (isBasic o) v (nameID o) (nameCl o) (nameAt o) (namePC o) (namePE o).
Definition set_nameID (v : string) (o : fragset) : fragset :=
  Fragset (isBasic o) (nameEl o) v (nameCl o) (nameAt o) (namePC o) (namePE o).
Definition set_nameCl (v : list string) (o : fragset) : fragset :=
  Fragset (isBasic o) (nameEl o) (nameID o) v (nameAt o) (namePC o) (namePE o).
Definition set_nameAt (v : list string) (o : fragset) : fragset :=
  Fragset (isBasic o) (nameEl o) (nameID o) (nameCl o) v (namePC o) (namePE o).
Definition set_namePC (v : list string) (o : fragset) : fragset :=
  Fragset (isBasic o) (nameEl o) (nameID o) (nameCl o) (nameAt o) v (namePE o).
Definition set_namePE (v : string) (o : fragset) : fragset :=
  Fragset (isBasic o) (nameEl o) (nameID o) (nameCl o) (nameAt o) (namePC o) v.

Abbreviation loc := nat (only parsing).
Abbreviation heap := (list fragset) (only parsing).

(** [None]: stuck on an address outside the store. *)
Definition M (A : Type) : Type := heap -> option (heap * outcome A).

Definition ret {A} (a : A) : M A := fun h => Some (h, Return a).

Definition bind {A B} (m : M A) (f : A -> M B) : M B :=
  fun h =>
    match m h with
    | None => None
    | Some (h', Return a) => f a h'
    | Some (h', Throw e) => Some (h', Throw e)
    end.

Definition throw {A} (e : error) : M A := fun h => Some (h, Throw e).

(** [try { m } catch (e) { }]: the exception becomes a value, the writes
    made before it stay. *)
Definition catch {A} (m : M A) : M (outcome A) :=
  fun h =>
    match m h with
    | None => None
    | Some (h', r) => Some (h', Return r)
    end.

Declare Scope js_scope.
Delimit Scope js_scope with js.
Notation "x <- m ;; k" := (bind m (fun x => k))
  (at level 100, m at next level, right associativity) : js_scope.
Notation "m ;;; k" := (bind m (fun _ => k))
  (at level 100, right associativity) : js_scope.

(** Property read, property write and object creation. *)
Definition get (l : loc) : M fragset :=
  fun h => match h !! l with Some o => Some (h, Return o) | None => None end.

Definition modify (l : loc) (f : fragset -> fragset) : M unit :=
  fun h => match h !! l with
           | Some o => Some (<[l := f o]> h, Return tt)
           | None => None
           end.

Definition alloc (o : fragset) : M loc :=
  fun h => Some (h ++ [o], Return (length h)).

(** [a !== b] on strings and on array lengths. *)
Definition strict_ne (a b : string) : bool := negb (String.eqb a b).
Definition length_ne (a : list string) (n : nat) : bool :=
  negb (Nat.eqb (length a) n).

(** ** cssSelectorBuilder *)

Module cssSelectorBuilder.
Local Open Scope js_scope.

(** The object literal: the shared zero-value template. *)
Definition template : fragset :=
  {| isBasic := true; nameEl := ""; nameID := ""; nameCl := [];
     nameAt := []; namePC := []; namePE := "" |}.

(** [clear()]: a new object, [Object.assign]ed from [this], every fragment
    reset and [isBasic] off. *)
Definition clear (this : loc) : M loc :=
  o <- get this ;;
  let b := o in
  let b := set_nameEl "" b in
  let b := set_nameID "" b in
  let b := set_nameCl [] b in
  let b := set_nameAt [] b in
  let b := set_namePC [] b in
  let b := set_namePE "" b in
  let b := set_isBasic false b in
  alloc b.

(** [let a = this; if (a.isBasic === true) a = this.clear();] *)
Definition self (this : loc) : M loc :=
  o <- get this ;;
  if isBasic o then clear this else ret this.

Definition element (this : loc) (value : string) : M loc :=
  a <- self this ;;
  o <- get a ;;
  if strict_ne (nameEl o) "" then throw DuplicateFragmentError else
  if strict_ne (namePE o) "" || length_ne (namePC o) 0 || length_ne (nameAt o) 0
     || length_ne (nameCl o) 0 || strict_ne (nameID o) ""
  then throw OutOfOrderError else
  modify a (set_nameEl value) ;;;
  ret a.

Definition id (this : loc) (value : string) : M loc :=
  a <- self this ;;
  o <- get a ;;
  if strict_ne (nameID o) "" then throw DuplicateFragmentError else
  if strict_ne (namePE o) "" || length_ne (namePC o) 0 || length_ne (nameAt o) 0
     || length_ne (nameCl o) 0
  then throw OutOfOrderError else
  modify a (set_nameID value) ;;;
  ret a.

Definition class (this : loc) (value : string) : M loc :=
  a <- self this ;;
  o <- get a ;;
  if strict_ne (namePE o) "" || length_ne (namePC o) 0 || length_ne (nameAt o) 0
  then throw OutOfOrderError else
  modify a (fun o => set_nameCl (nameCl o ++ [value]) o) ;;;
  ret a.

(** The push comes before the test. *)
Definition attr (this : loc) (value : string) : M loc :=
  a <- self this ;;
  modify a (fun o => set_nameAt (nameAt o ++ [value]) o) ;;;
  o <- get a ;;
  if strict_ne (namePE o) "" || length_ne (namePC o) 0
  then throw OutOfOrderError else
  ret a.

Definition pseudoClass (this : loc) (value : string) : M loc :=
  a <- self this ;;
  o <- get a ;;
  if strict_ne (namePE o) "" then throw OutOfOrderError else
  modify a (fun o => set_namePC (namePC o ++ [value]) o) ;;;
  ret a.

Definition pseudoElement (this : loc) (value : string) : M loc :=
  a <- self this ;;
  o <- get a ;;
  if strict_ne (namePE o) "" then throw DuplicateFragmentError else
  modify a (set_namePE value) ;;;
  ret a.

(** The string [stringify] builds from the properties of [this]; the three
    [for] loops run over the arrays from index 0. *)
Definition render (o : fragset) : string :=
  let str := "" in
  let str := if strict_ne (nameEl o) "" then str +:+ nameEl o else str in
  let str := if strict_ne (nameID o) "" then str +:+ ("#" +:+ nameID o) else str in
  let str := fold_left (fun str c => str +:+ ("." +:+ c)) (nameCl o) str in
  let str := fold_left (fun str a => str +:+ ("[" +:+ a +:+ "]")) (nameAt o) str in
  let str := fold_left (fun str p => str +:+ (":" +:+ p)) (namePC o) str in
  let str := if strict_ne (namePE o) "" then str +:+ ("::" +:+ namePE o) else str in
  str.

(** The six resets at the end of [stringify]. *)
Definition reset (o : fragset) : fragset :=
  set_namePE "" (set_namePC [] (set_nameAt [] (set_nameCl []
    (set_nameID "" (set_nameEl "" o))))).

Definition stringify (this : loc) : M string :=
  o <- get this ;;
  let str := render o in
  modify this reset ;;;
  ret str.

(** A selector value: a builder object, or the object [combine] returns,
    whose [stringify] closes over the two selectors and the combinator. *)
Inductive selector : Type :=
  | Simple (this : loc)
  | Combined (a : selector) (b : string) (c : selector).

Definition combine (selector1 : selector) (combinator : string)
    (selector2 : selector) : selector :=
  Combined selector1 combinator selector2.

(** [x.stringify()]; the template literal evaluates [selector1.stringify()]
    before [selector2.stringify()]. *)
Fixpoint stringify_selector (x : selector) : M string :=
  match x with
  | Simple this => stringify this
  | Combined selector1 combinator selector2 =>
      r1 <- stringify_selector selector1 ;;
      r2 <- stringify_selector selector2 ;;
      ret (r1 +:+ " " +:+ combinator +:+ " " +:+ r2)
  end.

End cssSelectorBuilder.

(** ** Chains of builder calls *)

Module Chain.
Import cssSelectorBuilder.
Local Open Scope js_scope.

(** One fragment-adding call, by method and argument. *)
Inductive op : Type :=
  | OpElement (value : string)
  | OpId (value : string)
  | OpClass (value : string)
  | OpAttr (value : string)
  | OpPseudoClass (value : string)
  | OpPseudoElement (value : string).

Definition apply_op (k : op) (this : loc) : M loc :=
  match k with
  | OpElement v => element this v
  | OpId v => id this v
  | OpClass v => class this v
  | OpAttr v => attr this v
  | OpPseudoClass v => pseudoClass this v
  | OpPseudoElement v => pseudoElement this v
  end.

(** [this.k1(..).k2(..)...]: every call is made on what the one before
    returned; an exception ends the chain. *)
Fixpoint run_chain (this : loc) (ks : list op) : M loc :=
  match ks with
  | [] => ret this
  | k :: ks => a <- apply_op k this ;; run_chain a ks
  end.

(** The calls of a chain in grammar order: at most one element, at most one
    id, classes, attributes, pseudo-classes, at most one pseudo-element. *)
Definition grammar_chain (el ident : option string) (cls ats pcs : list string)
    (pe : option string) : list op :=
  option_list (OpElement <$> el) ++ option_list (OpId <$> ident)
  ++ (OpClass <$> cls) ++ (OpAttr <$> ats) ++ (OpPseudoClass <$> pcs)
  ++ option_list (OpPseudoElement <$> pe).

(** A singleton fragment is present when its name is not the empty string:
    this is the test the code makes ([!== '']); a call with the empty
    name leaves the fragment absent. *)
Definition present (name : option string) : option string :=
  match name with
  | Some n => if strict_ne n "" then Some n else None
  | None => None
  end.

Definition concat_map (f : string -> string) (l : list string) : string :=
  fold_right (fun x acc => f x +:+ acc) "" l.

(** The string the specification asks of [render()], every fragment of
    the chain taken as present. *)
Definition claimed_render (el ident : option string) (cls ats pcs : list string)
    (pe : option string) : string :=
  (match el with Some e => e | None => "" end)
  +:+ (match ident with Some i => "#" +:+ i | None => "" end)
  +:+ concat_map (fun c => "." +:+ c) cls
  +:+ concat_map (fun a => "[" +:+ a +:+ "]") ats
  +:+ concat_map (fun p => ":" +:+ p) pcs
  +:+ (match pe with Some p => "::" +:+ p | None => "" end).

(** The same, a singleton fragment taken as present when its name is not
    empty. *)
Definition spec_render (el ident : option string) (cls ats pcs : list string)
    (pe : option string) : string :=
  (match present el with Some e => e | None => "" end)
  +:+ (match present ident with Some i => "#" +:+ i | None => "" end)
  +:+ concat_map (fun c => "." +:+ c) cls
  +:+ concat_map (fun a => "[" +:+ a +:+ "]") ats
  +:+ concat_map (fun p => ":" +:+ p) pcs
  +:+ (match present pe with Some p => "::" +:+ p | None => "" end).

(** What one call does to the object it works on (the clone, for a call on
    the template), and the exception it ends with, if any. *)
Definition step (k : op) (o : fragset) : fragset * option error :=
  match k with
  | OpElement v =>
      if strict_ne (nameEl o) "" then (o, Some DuplicateFragmentError) else
      if strict_ne (namePE o) "" || length_ne (namePC o) 0
         || length_ne (nameAt o) 0 || length_ne (nameCl o) 0
         || strict_ne (nameID o) ""
      then (o, Some OutOfOrderError) else (set_nameEl v o, None)
  | OpId v =>
      if strict_ne (nameID o) "" then (o, Some DuplicateFragmentError) else
      if strict_ne (namePE o) "" || length_ne (namePC o) 0
         || length_ne (nameAt o) 0 || length_ne (nameCl o) 0
      then (o, Some OutOfOrderError) else (set_nameID v o, None)
  | OpClass v =>
      if strict_ne (namePE o) "" || length_ne (namePC o) 0
         || length_ne (nameAt o) 0
      then (o, Some OutOfOrderError)
      else (set_nameCl (nameCl o ++ [v]) o, None)
  | OpAttr v =>
      let o' := set_nameAt (nameAt o ++ [v]) o in
      if strict_ne (namePE o') "" || length_ne (namePC o') 0
      then (o', Some OutOfOrderError) else (o', None)
  | OpPseudoClass v =>
      if strict_ne (namePE o) "" then (o, Some OutOfOrderError)
      else (set_namePC (namePC o ++ [v]) o, None)
  | OpPseudoElement v =>
      if strict_ne (namePE o) "" then (o, Some DuplicateFragmentError)
      else (set_namePE v o, None)
  end.

Definition step_outcome (l : loc) (e : option error) : outcome loc :=
  match e with None => Return l | Some e => Throw e end.

(** A chain of calls on one object, up to the first exception. *)
Fixpoint steps (ks : list op) (o : fragset) : fragset * option error :=
  match ks with
  | [] => (o, None)
  | k :: ks =>
      match step k o with
      | (o', None) => steps ks o'
      | (o', Some e) => (o', Some e)
      end
  end.

(** The object a chain in grammar order builds. *)
Definition built (el ident : option string) (cls ats pcs : list string)
    (pe : option string) : fragset :=
  {| isBasic := false;
     nameEl := default "" el; nameID := default "" ident;
     nameCl := cls; nameAt := ats; namePC := pcs;
     namePE := default "" pe |}.

(** The object [clear()] creates. *)
Definition fresh : fragset :=
  {| isBasic := false; nameEl := ""; nameID := ""; nameCl := [];
     nameAt := []; namePC := []; namePE := "" |}.

(** The builder is the first object of the store, and the only one with
    [isBasic] on. *)
Definition wf (h : heap) : Prop :=
  exists rest,
    h = template :: rest /\ Forall (fun o => isBasic o = false) rest.

(** The store when the module is loaded. *)
Definition initial : heap := [template].

(** Addresses a selector renders. *)
Fixpoint locs (x : selector) : list loc :=
  match x with
  | Simple l => [l]
  | Combined a _ c => locs a ++ locs c
  end.

(** The nested example of the source comment, with its four chains built in
    argument order before the outer [stringify]. *)
Definition nested_example : M string :=
  s1 <- (a <- element 0 "div" ;; a <- id a "main" ;;
         a <- class a "container" ;; class a "draggable") ;;
  s2 <- (a <- element 0 "table" ;; id a "data") ;;
  s3 <- (a <- element 0 "tr" ;; pseudoClass a "nth-of-type(even)") ;;
  s4 <- (a <- element 0 "td" ;; pseudoClass a "nth-of-type(even)") ;;
  stringify_selector
    (combine (Simple s1) "+"
       (combine (Simple s2) "~"
          (combine (Simple s3) " " (Simple s4)))).

(** *** Grammar order of a list of calls *)

(** The place of a call in the grammar: element, id, class, attribute,
    pseudo-class, pseudo-element. *)
Definition category (k : op) : nat :=
  match k with
  | OpElement _ => 1
  | OpId _ => 2
  | OpClass _ => 3
  | OpAttr _ => 4
  | OpPseudoClass _ => 5
  | OpPseudoElement _ => 6
  end.

(** Element, id and pseudo-element come at most once. *)
Definition once (c : nat) : bool := (c =? 1) || (c =? 2) || (c =? 6).

(** A call of category [c] may come after one of category [p] ([0]: no call
    yet): later in the grammar, or the same place when the place may
    repeat. *)
Definition may_follow (p c : nat) : bool :=
  if once c then p <? c else p <=? c.

Fixpoint ordered_from (p : nat) (ks : list op) : bool :=
  match ks with
  | [] => true
  | k :: ks => may_follow p (category k) && ordered_from (category k) ks
  end.

Definition grammar_ordered (ks : list op) : bool := ordered_from 0 ks.

(** The name an element, id or pseudo-element call gives is not empty. *)
Definition named (k : op) : bool :=
  match k with
  | OpElement v | OpId v | OpPseudoElement v => strict_ne v ""
  | _ => true
  end.

(** The last place of the grammar an object has a fragment of. *)
Definition level (o : fragset) : nat :=
  if strict_ne (namePE o) "" then 6 else
  if length_ne (namePC o) 0 then 5 else
  if length_ne (nameAt o) 0 then 4 else
  if length_ne (nameCl o) 0 then 3 else
  if strict_ne (nameID o) "" then 2 else
  if strict_ne (nameEl o) "" then 1 else 0.

Definition returned {A} (r : outcome A) : bool :=
  match r with Return _ => true | Throw _ => false end.

(** What is left of the rendering of a selector when its objects hold no
    fragment: the combinators between their spaces. *)
Fixpoint skeleton (x : selector) : string :=
  match x with
  | Simple _ => ""
  | Combined a b c => skeleton a +:+ " " +:+ b +:+ " " +:+ skeleton c
  end.

End Chain.

(** ** Several chains over one store *)

Module Schedule.
Import cssSelectorBuilder Chain.
Local Open Scope js_scope.

(** What a caller does with the object its chain holds. *)
Inductive action : Type :=
  | Add (k : op)
  | Render
  | Clear.

(** What the caller sees of it. *)
Inductive observation : Type :=
  | Added
  | Raised (e : error)
  | Rendered (s : string)
  | Cleared.

(** One action on the object [this]; the caller goes on with the object a
    call returns, and keeps the one it has when the call raises. *)
Definition act (a : action) (this : loc) : M (loc * observation) :=
  match a with
  | Add k =>
      r <- catch (apply_op k this) ;;
      match r with
      | Return b => ret (b, Added)
      | Throw e => ret (this, Raised e)
      end
  | Render => s <- stringify this ;; ret (this, Rendered s)
  | Clear => b <- clear this ;; ret (b, Cleared)
  end.

(** Chains are numbered; [held c] is the object chain [c] holds. A
    schedule interleaves the actions of the chains. *)
Fixpoint run (sched : list (nat * action)) (held : nat -> loc)
    : M (list (nat * observation)) :=
  match sched with
  | [] => ret []
  | (c, a) :: sched =>
      r <- act a (held c) ;;
      obs <- run sched (<[c := r.1]> held) ;;
      ret ((c, r.2) :: obs)
  end.

(** Every chain starts on the builder. *)
Definition start : nat -> loc := fun _ => 0.

Definition of_chain {A} (c : nat) (l : list (nat * A)) : list (nat * A) :=
  filter (fun e => e.1 = c) l.

(** The write an action makes, by the object it is made on. *)
Inductive effect : Type :=
  | Update (o' : fragset)
  | Alloc (o' : fragset) (moved : bool).

Definition act_pure (a : action) (o : fragset) : effect * observation :=
  match a with
  | Add k =>
      if isBasic o then
        match step k fresh with
        | (o', None) => (Alloc o' true, Added)
        | (o', Some e) => (Alloc o' false, Raised e)
        end
      else
        match step k o with
        | (o', None) => (Update o', Added)
        | (o', Some e) => (Update o', Raised e)
        end
  | Render => (Update (reset o), Rendered (render o))
  | Clear => (Alloc fresh true, Cleared)
  end.

Definition apply_effect (ef : effect) (l : loc) (h : heap) : heap * loc :=
  match ef with
  | Update o' => (<[l := o']> h, l)
  | Alloc o' moved => (h ++ [o'], if moved then length h else l)
  end.

(** A call of a public method of the builder module on an object of the
    store; [combine] builds a [selector] and touches no object. *)
Inductive command : Type :=
  | CallClear (this : loc)
  | CallAdd (k : op) (this : loc)
  | CallStringify (x : selector).

Definition exec (c : command) : M unit :=
  match c with
  | CallClear this => _ <- clear this ;; ret tt
  | CallAdd k this => _ <- catch (apply_op k this) ;; ret tt
  | CallStringify x => _ <- stringify_selector x ;; ret tt
  end.

Definition targets (c : command) : list loc :=
  match c with
  | CallClear this => [this]
  | CallAdd _ this => [this]
  | CallStringify x => locs x
  end.

(** What the run of a whole schedule and the run of chain [c] alone have
    in common: chain [c] holds an object in the same state in both, and in
    the whole run no other chain holds that object, unless it is the
    builder. *)
Definition related (c : nat) (held1 : nat -> loc) (h1 : heap)
    (held2 : nat -> loc) (h2 : heap) : Prop :=
  wf h1 /\ wf h2
  /\ (forall c', held1 c' < length h1)
  /\ (forall c', c' <> c -> held1 c' = held1 c -> held1 c = 0)
  /\ is_Some (h2 !! held2 c)
  /\ h1 !! held1 c = h2 !! held2 c.

End Schedule.

(** * Properties *)

(** ** Rectangle *)

Section RectangleProperties.
Context {number : Type}.
Variable mul : number -> number -> number.

(** C9. The object [Rectangle(w, h)] returns has [width] [w], [height]
    [h], and its [getArea()] returns [w * h]. *)
Theorem C9_rectangle_fields_and_area (w h : number) :
  width (Rectangle mul w h) = w
  /\ height (Rectangle mul w h) = h
  /\ getArea (Rectangle mul w h) tt = mul w h.
Proof. by repeat split. Qed.

Lemma getArea_assign (r : rectangle number) a :
  getArea (assign r a) = getArea r.
Proof. by destruct a. Qed.

Lemma getArea_assign_all l (r : rectangle number) :
  getArea (assign_all l r) = getArea r.
Proof.
  revert r. induction l as [|a l IH]; intros r; [done|].
  cbn [assign_all fold_left]. fold (assign_all l (assign r a)).
  by rewrite IH, getArea_assign.
Qed.

(** C10. [getArea()] is fixed when the rectangle is built: after any
    assignments to [width] and [height] of the object, it still returns the
    product of the arguments of the call. *)
Theorem C10_area_fixed_at_construction (w h : number)
    (l : list (assignment number)) :
  getArea (assign_all l (Rectangle mul w h)) tt = mul w h.
Proof. by rewrite getArea_assign_all. Qed.

End RectangleProperties.

(** The example of the source comment, and the same rectangle after
    [r.width = 5]: the field changes, the area does not. *)
Example Rectangle_10_20 :
  (width (Rectangle Z.mul 10 20) = 10
   /\ height (Rectangle Z.mul 10 20) = 20
   /\ getArea (Rectangle Z.mul 10 20) tt = 200)%Z.
Proof. by repeat split. Qed.

Example Rectangle_reassigned :
  (width (assign_all [SetWidth 5] (Rectangle Z.mul 10 20)) = 5
   /\ getArea (assign_all [SetWidth 5] (Rectangle Z.mul 10 20)) tt = 200)%Z.
Proof. by split. Qed.

Import cssSelectorBuilder Chain Schedule.
Local Open Scope js_scope.

(** ** Store lemmas *)

Lemma get_at (h : heap) l o : h !! l = Some o -> get l h = Some (h, Return o).
Proof. intros H. unfold get. by rewrite H. Qed.

Lemma modify_at (h : heap) l o f :
  h !! l = Some o -> modify l f h = Some (<[l := f o]> h, Return tt).
Proof. intros H. unfold modify. by rewrite H. Qed.

Lemma lookup_written (h : heap) l o o' :
  h !! l = Some o -> <[l := o']> h !! l = Some o'.
Proof. intros H. apply list_lookup_insert_eq. by eapply lookup_lt_Some. Qed.

Lemma lookup_fresh (h : heap) (o : fragset) : (h ++ [o]) !! length h = Some o.
Proof. rewrite lookup_app_r by lia. by rewrite Nat.sub_diag. Qed.

Lemma insert_fresh (h : heap) (o o' : fragset) :
  <[length h := o']> (h ++ [o]) = h ++ [o'].
Proof.
  rewrite insert_app_r_alt by lia. by rewrite Nat.sub_diag.
Qed.

Lemma clear_at (h : heap) l o :
  h !! l = Some o -> clear l h = Some (h ++ [fresh], Return (length h)).
Proof. intros H. unfold clear, bind. by rewrite (get_at h l o). Qed.

(** A call on an object that is not the template works on that object. *)
Lemma apply_op_local (h : heap) l o k :
  h !! l = Some o -> isBasic o = false ->
  apply_op k l h
  = Some (<[l := (step k o).1]> h, step_outcome l (step k o).2).
Proof.
  intros H Hb.
  assert (Hid : <[l := o]> h = h) by by apply list_insert_id.
  destruct k; cbn [apply_op step];
    unfold element, id, class, attr, pseudoClass, pseudoElement, self, bind;
    rewrite (get_at h l o H), Hb; cbn [ret];
    rewrite ?(get_at h l o H), ?(modify_at h l o _ H);
    rewrite ?(get_at _ l _ (lookup_written h l o _ H));
    repeat match goal with
           | |- context [if ?b then _ else _] => destruct b eqn:?
           end;
    cbn [fst snd step_outcome throw ret];
    rewrite ?(modify_at h l o _ H), ?Hid; try reflexivity.
Qed.

Lemma self_local (h : heap) l o :
  h !! l = Some o -> isBasic o = false -> self l h = Some (h, Return l).
Proof. intros H Hb. unfold self, bind. by rewrite (get_at h l o H), Hb. Qed.

Lemma self_template (h : heap) l o :
  h !! l = Some o -> isBasic o = true ->
  self l h = Some (h ++ [fresh], Return (length h)).
Proof.
  intros H Hb. unfold self, bind. rewrite (get_at h l o H), Hb.
  by apply clear_at with o.
Qed.

(** A call on the template works on a new object and leaves the template
    alone. *)
Lemma apply_op_template (h : heap) l o k :
  h !! l = Some o -> isBasic o = true ->
  apply_op k l h
  = Some (h ++ [(step k fresh).1], step_outcome (length h) (step k fresh).2).
Proof.
  intros H Hb.
  assert (Hf : (h ++ [fresh]) !! length h = Some fresh) by apply lookup_fresh.
  rewrite <- (insert_fresh h fresh).
  rewrite <- (apply_op_local (h ++ [fresh]) (length h) fresh k Hf eq_refl).
  destruct k; cbn [apply_op];
    unfold element, id, class, attr, pseudoClass, pseudoElement;
    unfold bind at 1; rewrite (self_template h l o H Hb);
    symmetry; unfold bind at 1;
    by rewrite (self_local _ _ _ Hf eq_refl).
Qed.

Lemma stringify_at (h : heap) l o :
  h !! l = Some o ->
  stringify l h = Some (<[l := reset o]> h, Return (render o)).
Proof.
  intros H. unfold stringify, bind.
  by rewrite (get_at h l o H), (modify_at h l o _ H).
Qed.

(** ** Chains on one object *)

Lemma step_isBasic k o : isBasic (step k o).1 = isBasic o.
Proof.
  destruct k; cbn [step];
    repeat match goal with
           | |- context [if ?b then _ else _] => destruct b
           end; reflexivity.
Qed.

Lemma steps_isBasic ks o : isBasic (steps ks o).1 = isBasic o.
Proof.
  revert o. induction ks as [|k ks IH]; intros o; [done|].
  cbn [steps]. pose proof (step_isBasic k o) as Hk.
  destruct (step k o) as [o' [e|]]; [done|]. by rewrite IH.
Qed.

Lemma steps_app ks1 ks2 o o1 :
  steps ks1 o = (o1, None) -> steps (ks1 ++ ks2) o = steps ks2 o1.
Proof.
  revert o. induction ks1 as [|k ks1 IH]; intros o; cbn [steps app].
  - by intros [= ->].
  - destruct (step k o) as [o' [e|]]; [done|]. apply IH.
Qed.

Lemma run_chain_local (h : heap) l o ks :
  h !! l = Some o -> isBasic o = false ->
  run_chain l ks h
  = Some (<[l := (steps ks o).1]> h, step_outcome l (steps ks o).2).
Proof.
  revert h o. induction ks as [|k ks IH]; intros h o H Hb.
  - cbn. by rewrite list_insert_id.
  - cbn [run_chain steps]. unfold bind.
    rewrite (apply_op_local h l o k H Hb).
    pose proof (step_isBasic k o) as Hk.
    destruct (step k o) as [o' [e|]]; cbn [fst snd step_outcome] in *; [done|].
    rewrite (IH _ o'); [|by eapply lookup_written|congruence].
    by rewrite list_insert_insert_eq.
Qed.

Lemma run_chain_template (h : heap) l o k ks :
  h !! l = Some o -> isBasic o = true ->
  run_chain l (k :: ks) h
  = Some (h ++ [(steps (k :: ks) fresh).1],
          step_outcome (length h) (steps (k :: ks) fresh).2).
Proof.
  intros H Hb. cbn [run_chain steps]. unfold bind.
  rewrite (apply_op_template h l o k H Hb).
  pose proof (step_isBasic k fresh) as Hk.
  destruct (step k fresh) as [o' [e|]]; cbn [fst snd step_outcome] in *; [done|].
  rewrite (run_chain_local _ _ o'); [|apply lookup_fresh|done].
  by rewrite insert_fresh.
Qed.

(** ** Chains in grammar order *)

Lemma steps_classes b e i c0 cls :
  steps (OpClass <$> cls) (Fragset b e i c0 [] [] "")
  = (Fragset b e i (c0 ++ cls) [] [] "", None).
Proof.
  revert c0. induction cls as [|c cls IH]; intros c0.
  - by rewrite app_nil_r.
  - cbn. unfold set_nameCl; cbn. rewrite IH. by rewrite <- app_assoc.
Qed.

Lemma steps_attrs b e i c a0 ats :
  steps (OpAttr <$> ats) (Fragset b e i c a0 [] "")
  = (Fragset b e i c (a0 ++ ats) [] "", None).
Proof.
  revert a0. induction ats as [|a ats IH]; intros a0.
  - by rewrite app_nil_r.
  - cbn. unfold set_nameAt; cbn. rewrite IH. by rewrite <- app_assoc.
Qed.

Lemma steps_pseudoClasses b e i c a p0 pcs :
  steps (OpPseudoClass <$> pcs) (Fragset b e i c a p0 "")
  = (Fragset b e i c a (p0 ++ pcs) "", None).
Proof.
  revert p0. induction pcs as [|p pcs IH]; intros p0.
  - by rewrite app_nil_r.
  - cbn. unfold set_namePC; cbn. rewrite IH. by rewrite <- app_assoc.
Qed.

Lemma steps_grammar_chain el ident cls ats pcs pe :
  steps (grammar_chain el ident cls ats pcs pe) fresh
  = (built el ident cls ats pcs pe, None).
Proof.
  unfold grammar_chain, built.
  rewrite (steps_app _ _ fresh (Fragset false (default "" el) "" [] [] [] ""));
    [|by destruct el].
  rewrite (steps_app _ _ _
             (Fragset false (default "" el) (default "" ident) [] [] [] ""));
    [|by destruct ident].
  rewrite (steps_app _ _ _ _ (steps_classes _ _ _ [] cls)).
  rewrite (steps_app _ _ _ _ (steps_attrs _ _ _ _ [] ats)).
  rewrite (steps_app _ _ _ _ (steps_pseudoClasses _ _ _ _ _ [] pcs)).
  by destruct pe.
Qed.

(** ** Rendering *)

Lemma append_cons a s t : String a s +:+ t = String a (s +:+ t).
Proof. reflexivity. Qed.

Lemma append_nil_r s : s +:+ "" = s.
Proof. induction s as [|a s IH]; [done|]. by rewrite append_cons, IH. Qed.

Lemma append_assoc s t u : (s +:+ t) +:+ u = s +:+ (t +:+ u).
Proof. induction s as [|a s IH]; [done|]. by rewrite !append_cons, IH. Qed.

Lemma fold_left_append (f : string -> string) l s :
  fold_left (fun str x => str +:+ f x) l s = s +:+ concat_map f l.
Proof.
  revert s. induction l as [|x l IH]; intros s; cbn [fold_left concat_map fold_right].
  - by rewrite append_nil_r.
  - rewrite IH. apply append_assoc.
Qed.

Lemma render_built el ident cls ats pcs pe :
  render (built el ident cls ats pcs pe) = spec_render el ident cls ats pcs pe.
Proof.
  unfold render, spec_render, built; cbn [nameEl nameID nameCl nameAt namePC namePE].
  rewrite !fold_left_append.
  assert (H1 : (if strict_ne (default "" el) "" then "" +:+ default "" el else "")
               = match present el with Some e => e | None => "" end).
  { destruct el as [n|]; [|done]. cbn. by destruct (strict_ne n ""). }
  rewrite H1. clear H1.
  set (s1 := match present el with Some e => e | None => "" end).
  assert (H2 : (if strict_ne (default "" ident) ""
                then s1 +:+ "#" +:+ default "" ident else s1)
               = s1 +:+ match present ident with
                        | Some i => "#" +:+ i | None => "" end).
  { destruct ident as [n|]; cbn.
    - destruct (strict_ne n ""); [done|by rewrite append_nil_r].
    - by rewrite append_nil_r. }
  rewrite H2. clear H2.
  set (s2 := match present ident with Some i => "#" +:+ i | None => "" end).
  match goal with
  | |- (if _ then ?a +:+ _ else _) = _ =>
      transitivity (a +:+ match present pe with
                          | Some p => "::" +:+ p | None => "" end)
  end.
  { destruct pe as [n|]; cbn.
    - destruct (strict_ne n ""); [done|by rewrite append_nil_r].
    - by rewrite append_nil_r. }
  by rewrite !append_assoc.
Qed.

(** With no empty name for the id and the pseudo-element, the two strings
    are one. *)
Lemma spec_render_claimed el ident cls ats pcs pe :
  ident <> Some "" -> pe <> Some "" ->
  spec_render el ident cls ats pcs pe = claimed_render el ident cls ats pcs pe.
Proof.
  intros Hi Hp. unfold spec_render, claimed_render.
  assert (He : match present el with Some e => e | None => "" end
               = match el with Some e => e | None => "" end).
  { destruct el as [n|]; [|done]. unfold present, strict_ne.
    by destruct (String.eqb_spec n "") as [->|]. }
  assert (Hn : forall o : option string, o <> Some "" -> present o = o).
  { intros [n|] Ho; [|done]. unfold present, strict_ne.
    by destruct (String.eqb_spec n "") as [->|]. }
  by rewrite He, (Hn ident Hi), (Hn pe Hp).
Qed.

(** C1, as the code has it. Every chain of calls in grammar order, started
    on the builder (at most one [element], at most one [id], any [class]es,
    any [attr]s, any [pseudoClass]es, at most one [pseudoElement]), runs
    without an exception, and [stringify] on its result returns the
    element, ['#'] and the id, ['.'] and each class, each attribute in
    brackets, [':'] and each pseudo-class, ['::'] and the pseudo-element,
    in that order; the id and the pseudo-element are present when their
    name is not the empty string. *)
Theorem C1_grammar_order_renders (h : heap) el ident cls ats pcs pe :
  h !! 0 = Some template ->
  exists a h' h'',
    run_chain 0 (grammar_chain el ident cls ats pcs pe) h = Some (h', Return a)
    /\ stringify a h'
       = Some (h'', Return (spec_render el ident cls ats pcs pe)).
Proof.
  intros H0.
  pose proof (steps_grammar_chain el ident cls ats pcs pe) as Hs.
  rewrite <- render_built.
  destruct (grammar_chain el ident cls ats pcs pe) as [|k ks].
  - apply (f_equal fst) in Hs. cbn [steps fst] in Hs. rewrite <- Hs.
    exists 0, h, (<[0 := reset template]> h). split; [done|].
    by rewrite (stringify_at h 0 template H0).
  - exists (length h), (h ++ [built el ident cls ats pcs pe]).
    eexists. split.
    + rewrite (run_chain_template h 0 template k ks H0 eq_refl).
      by rewrite Hs.
    + apply stringify_at, lookup_fresh.
Qed.

Lemma C1_witness :
  initial !! 0 = Some template /\
  exists a h' h'',
    run_chain 0 (grammar_chain (Some "a") None [] ["href$=.png"] ["focus"] None)
      initial = Some (h', Return a)
    /\ stringify a h' = Some (h'', Return "a[href$=.png]:focus").
Proof.
  split; [reflexivity|].
  exact (C1_grammar_order_renders initial (Some "a") None []
           ["href$=.png"] ["focus"] None eq_refl).
Defined.

(** C1 as stated fails on an empty name: after [id('')] the id is taken as
    absent and [stringify] returns the empty string, not ['#']. *)
Lemma C1_counterexample :
  exists a h' h'',
    run_chain 0 (grammar_chain None (Some "") [] [] [] None) initial
    = Some (h', Return a)
    /\ stringify a h' = Some (h'', Return "")
    /\ claimed_render None (Some "") [] [] [] None = "#".
Proof. eexists _, _, _. repeat split; vm_compute; reflexivity. Qed.

(** C3. [stringify] returns the rendering of the object and leaves every
    fragment of it empty, so a second [stringify] with nothing added in
    between returns the empty string. *)
Theorem C3_stringify_clears (h : heap) l o :
  h !! l = Some o ->
  exists h' o',
    stringify l h = Some (h', Return (render o))
    /\ h' !! l = Some o'
    /\ nameEl o' = "" /\ nameID o' = "" /\ nameCl o' = []
    /\ nameAt o' = [] /\ namePC o' = [] /\ namePE o' = ""
    /\ stringify l h' = Some (h', Return "").
Proof.
  intros H. exists (<[l := reset o]> h), (reset o).
  pose proof (lookup_written h l o (reset o) H) as H'.
  split; [by apply stringify_at|].
  split; [done|]. do 6 (split; [done|]).
  rewrite (stringify_at _ l _ H'). by rewrite list_insert_insert_eq.
Qed.

Lemma C3_witness :
  [template; Fragset false "div" "main" ["c"] ["x"] ["hover"] "after"] !! 1
  = Some (Fragset false "div" "main" ["c"] ["x"] ["hover"] "after") /\
  exists h' o',
    stringify 1 [template; Fragset false "div" "main" ["c"] ["x"] ["hover"] "after"]
    = Some (h', Return "div#main.c[x]:hover::after")
    /\ h' !! 1 = Some o'
    /\ nameEl o' = "" /\ nameID o' = "" /\ nameCl o' = []
    /\ nameAt o' = [] /\ namePC o' = [] /\ namePE o' = ""
    /\ stringify 1 h' = Some (h', Return "").
Proof.
  split; [reflexivity|].
  exact (C3_stringify_clears
           [template; Fragset false "div" "main" ["c"] ["x"] ["hover"] "after"]
           1 _ eq_refl).
Defined.

(** C7. The nested example of the source comment: [stringify] on the
    combination of the four chains returns the string given there, with
    three spaces where the space combinator stands between its two
    separating spaces. *)
Theorem C7_nested_example :
  exists h',
    nested_example initial
    = Some (h', Return
        "div#main.container.draggable + table#data ~ tr:nth-of-type(even)   td:nth-of-type(even)").
Proof. eexists. vm_compute. reflexivity. Qed.

(** The scenarios of the builder: an id and two classes; a second id; an
    element after a class. *)
Example id_and_classes :
  exists h',
    (a <- id 0 "main" ;; a <- class a "container" ;;
     a <- class a "editable" ;; stringify a) initial
    = Some (h', Return "#main.container.editable").
Proof. eexists. vm_compute. reflexivity. Qed.

Example id_twice :
  exists h',
    (a <- element 0 "div" ;; a <- id a "main" ;; id a "x") initial
    = Some (h', Throw DuplicateFragmentError).
Proof. eexists. vm_compute. reflexivity. Qed.

Example element_after_class :
  exists h',
    (a <- class 0 "a" ;; element a "div") initial
    = Some (h', Throw OutOfOrderError).
Proof. eexists. vm_compute. reflexivity. Qed.

(** ** The builder stays the template *)

Lemma wf_initial : wf initial.
Proof. exists []. by split. Qed.

Lemma wf_template (h : heap) : wf h -> h !! 0 = Some template.
Proof. by intros (rest & -> & _). Qed.

Lemma wf_basic (h : heap) l o :
  wf h -> h !! l = Some o -> isBasic o = true -> l = 0 /\ o = template.
Proof.
  intros (rest & -> & Hrest) H Hb. destruct l as [|l]; cbn in H.
  - split; congruence.
  - rewrite Forall_lookup in Hrest. specialize (Hrest l o H). congruence.
Qed.

Lemma wf_insert (h : heap) l o :
  wf h -> l <> 0 -> isBasic o = false -> wf (<[l := o]> h).
Proof.
  intros (rest & -> & Hrest) Hl Hb. destruct l as [|l]; [done|].
  exists (<[l := o]> rest). split; [done|]. by apply Forall_insert.
Qed.

Lemma wf_snoc (h : heap) o : wf h -> isBasic o = false -> wf (h ++ [o]).
Proof.
  intros (rest & -> & Hrest) Hb. exists (rest ++ [o]). split; [done|].
  apply Forall_app. split; [done|]. by constructor.
Qed.

Lemma wf_local (h : heap) l o :
  wf h -> h !! l = Some o -> isBasic o = false -> l <> 0.
Proof. intros Hwf H Hb ->. rewrite (wf_template h Hwf) in H. by injection H as <-. Qed.

Lemma strict_ne_true a b : strict_ne a b = true <-> a <> b.
Proof.
  unfold strict_ne. rewrite negb_true_iff.
  destruct (String.eqb_spec a b); split; congruence.
Qed.

Lemma length_ne_0 (l : list string) : length_ne l 0 = true <-> l <> [].
Proof. destruct l; cbn; split; congruence. Qed.

(** C4, as the code has it. On one object of a store the builder heads:
    [id], when no id is set yet and a class has been added, raises
    OutOfOrderError; [element], when an element is set, raises
    DuplicateFragmentError; [pseudoElement], when a pseudo-element is set,
    raises DuplicateFragmentError. The store is as before in each case. *)
Theorem C4_violations (h : heap) l o v :
  wf h -> h !! l = Some o ->
  (nameID o = "" -> nameCl o <> [] ->
   id l v h = Some (h, Throw OutOfOrderError))
  /\ (nameEl o <> "" -> element l v h = Some (h, Throw DuplicateFragmentError))
  /\ (namePE o <> "" ->
      pseudoElement l v h = Some (h, Throw DuplicateFragmentError)).
Proof.
  intros Hwf H.
  destruct (isBasic o) eqn:Hb.
  { destruct (wf_basic h l o Hwf H Hb) as [-> ->]. by repeat split. }
  assert (Hid : <[l := o]> h = h) by by apply list_insert_id.
  repeat split.
  - intros Hi Hc.
    change (id l v h) with (apply_op (OpId v) l h).
    rewrite (apply_op_local h l o (OpId v) H Hb). cbn [step].
    rewrite Hi. apply length_ne_0 in Hc. rewrite Hc.
    change (strict_ne "" "") with false. rewrite !orb_true_r. cbn. by rewrite Hid.
  - intros He. apply strict_ne_true in He.
    change (element l v h) with (apply_op (OpElement v) l h).
    rewrite (apply_op_local h l o (OpElement v) H Hb). cbn [step].
    rewrite He. cbn. by rewrite Hid.
  - intros Hp. apply strict_ne_true in Hp.
    change (pseudoElement l v h) with (apply_op (OpPseudoElement v) l h).
    rewrite (apply_op_local h l o (OpPseudoElement v) H Hb). cbn [step].
    rewrite Hp. cbn. by rewrite Hid.
Qed.

Lemma C4_witness :
  wf [template; Fragset false "div" "" ["c"] [] [] "after"]
  /\ id 1 "x" [template; Fragset false "div" "" ["c"] [] [] "after"]
     = Some ([template; Fragset false "div" "" ["c"] [] [] "after"],
             Throw OutOfOrderError)
  /\ element 1 "p" [template; Fragset false "div" "" ["c"] [] [] "after"]
     = Some ([template; Fragset false "div" "" ["c"] [] [] "after"],
             Throw DuplicateFragmentError)
  /\ pseudoElement 1 "before"
       [template; Fragset false "div" "" ["c"] [] [] "after"]
     = Some ([template; Fragset false "div" "" ["c"] [] [] "after"],
             Throw DuplicateFragmentError).
Proof.
  assert (Hwf : wf [template; Fragset false "div" "" ["c"] [] [] "after"]).
  { eexists. split; [reflexivity|]. by repeat constructor. }
  split; [exact Hwf|].
  pose proof (fun v => C4_violations _ 1 _ v Hwf eq_refl) as H.
  split; [|split].
  - by apply (H "x").
  - by apply (H "p").
  - by apply (H "before").
Defined.

(** C4 as stated fails where an id is already set: [id] after [class]
    then raises DuplicateFragmentError, the first test of [id]. *)
Lemma C4_counterexample :
  exists h',
    (a <- id 0 "main" ;; a <- class a "container" ;; id a "other") initial
    = Some (h', Throw DuplicateFragmentError)
    /\ @Throw loc DuplicateFragmentError <> Throw OutOfOrderError.
Proof. eexists. split; [vm_compute; reflexivity|discriminate]. Qed.

(** [attr], in general: it raises exactly when a pseudo-class or a
    pseudo-element is there, and has pushed in either case. *)
Lemma attr_raises (h : heap) l o v :
  wf h -> h !! l = Some o -> namePC o <> [] \/ namePE o <> "" ->
  attr l v h
  = Some (<[l := set_nameAt (nameAt o ++ [v]) o]> h, Throw OutOfOrderError).
Proof.
  intros Hwf H Hp.
  destruct (isBasic o) eqn:Hb.
  { destruct (wf_basic h l o Hwf H Hb) as [-> ->]. by destruct Hp. }
  change (attr l v h) with (apply_op (OpAttr v) l h).
  rewrite (apply_op_local h l o (OpAttr v) H Hb). cbn.
  destruct Hp as [Hp|Hp].
  - apply length_ne_0 in Hp. by rewrite Hp, orb_true_r.
  - apply strict_ne_true in Hp. by rewrite Hp.
Qed.

Lemma attr_returns (h : heap) l o v :
  wf h -> h !! l = Some o -> namePC o = [] -> namePE o = "" ->
  exists h' a o',
    attr l v h = Some (h', Return a)
    /\ h' !! a = Some o' /\ nameAt o' = nameAt o ++ [v].
Proof.
  intros Hwf H Hpc Hpe.
  change (attr l v h) with (apply_op (OpAttr v) l h).
  destruct (isBasic o) eqn:Hb.
  - destruct (wf_basic h l o Hwf H Hb) as [-> ->].
    rewrite (apply_op_template h 0 template (OpAttr v) H Hb).
    eexists _, _, _. split; [reflexivity|]. split; [apply lookup_fresh|done].
  - rewrite (apply_op_local h l o (OpAttr v) H Hb). cbn.
    rewrite Hpc, Hpe. cbn.
    eexists _, _, _. split; [reflexivity|].
    split; [by eapply lookup_written|done].
Qed.

(** C2, at the failing input. [attr] after [pseudoClass] raises
    OutOfOrderError and has pushed all the same: the object the caller
    holds renders with the attribute in it. *)
Theorem C2_attr_pushes_before_raising :
  exists h',
    (a <- element 0 "a" ;; a <- pseudoClass a "focus" ;;
     r <- catch (attr a "href") ;;
     s <- stringify a ;;
     ret (r, s)) initial
    = Some (h', Return (Throw OutOfOrderError, "a[href]:focus")).
Proof. eexists. vm_compute. reflexivity. Qed.

(** ** Actions, by the object they are made on *)

Lemma reset_template : reset template = template.
Proof. reflexivity. Qed.

Lemma step_fresh k : (step k fresh).2 = None.
Proof. by destruct k. Qed.

Lemma act_spec (h : heap) l o a :
  h !! l = Some o ->
  act a l h
  = Some ((apply_effect (act_pure a o).1 l h).1,
          Return ((apply_effect (act_pure a o).1 l h).2, (act_pure a o).2)).
Proof.
  intros H. destruct a as [k| |]; cbn [act act_pure]; unfold bind, catch.
  - destruct (isBasic o) eqn:Hb.
    + rewrite (apply_op_template h l o k H Hb).
      by destruct (step k fresh) as [o' [e|]].
    + rewrite (apply_op_local h l o k H Hb).
      by destruct (step k o) as [o' [e|]].
  - by rewrite (stringify_at h l o H).
  - by rewrite (clear_at h l o H).
Qed.

Lemma effect_wf (h : heap) l o a :
  wf h -> h !! l = Some o -> wf (apply_effect (act_pure a o).1 l h).1.
Proof.
  intros Hwf H. destruct a as [k| |]; cbn [act_pure].
  - destruct (isBasic o) eqn:Hb.
    + pose proof (step_isBasic k fresh) as Hk.
      destruct (step k fresh) as [o' [e|]]; by apply wf_snoc.
    + pose proof (step_isBasic k o) as Hk.
      pose proof (wf_local h l o Hwf H Hb).
      destruct (step k o) as [o' [e|]]; apply wf_insert; cbn in *; congruence.
  - cbn. destruct (isBasic o) eqn:Hb.
    + destruct (wf_basic h l o Hwf H Hb) as [-> ->].
      by rewrite reset_template, list_insert_id.
    + apply wf_insert; [done|by eapply wf_local|done].
  - by apply wf_snoc.
Qed.

Lemma effect_length (h : heap) l ef :
  length h <= length (apply_effect ef l h).1.
Proof.
  destruct ef; cbn; [by rewrite length_insert|rewrite length_app; lia].
Qed.

Lemma effect_held (h : heap) l ef :
  l < length h ->
  (apply_effect ef l h).2 < length (apply_effect ef l h).1
  /\ ((apply_effect ef l h).2 = l \/ (apply_effect ef l h).2 = length h).
Proof.
  intros Hl. destruct ef as [o'|o' [|]]; cbn;
    rewrite ?length_insert, ?length_app; cbn; split; auto; lia.
Qed.

(** An action on one object leaves every other object as it is, and an
    action on the builder leaves the builder as it is. *)
Lemma effect_frame (h : heap) l o a l' :
  wf h -> h !! l = Some o -> l' < length h -> l' <> l \/ l = 0 ->
  (apply_effect (act_pure a o).1 l h).1 !! l' = h !! l'.
Proof.
  intros Hwf H Hl' Hne.
  destruct (act_pure a o).1 as [o1|o1 m] eqn:E; cbn;
    [|by apply lookup_app_l].
  destruct (decide (l' = l)) as [->|Hd]; [|by apply list_lookup_insert_ne].
  destruct Hne as [Hne|Hne]; [done|subst l].
  rewrite (wf_template h Hwf) in H. injection H as <-.
  destruct a as [k| |]; cbn in E.
  - by destruct (step k fresh) as [? [?|]].
  - injection E as <-. by rewrite list_insert_id by by apply wf_template.
  - done.
Qed.

(** The object a chain holds after an action is in the state the action
    gives it. *)
Lemma effect_object (h1 h2 : heap) l1 l2 o ef :
  h1 !! l1 = Some o -> h2 !! l2 = Some o ->
  (apply_effect ef l1 h1).1 !! (apply_effect ef l1 h1).2
  = (apply_effect ef l2 h2).1 !! (apply_effect ef l2 h2).2
  /\ is_Some ((apply_effect ef l2 h2).1 !! (apply_effect ef l2 h2).2).
Proof.
  intros H1 H2. destruct ef as [o'|o' [|]]; cbn.
  - rewrite (lookup_written h1 l1 o o' H1), (lookup_written h2 l2 o o' H2). eauto.
  - rewrite !lookup_fresh. eauto.
  - rewrite (lookup_app_l_Some _ _ _ _ H1), (lookup_app_l_Some _ _ _ _ H2). eauto.
Qed.

(** ** One chain does not see the others *)

Lemma run_cons sched held c a (h h' h'' : heap) r obs :
  act a (held c) h = Some (h', Return r) ->
  run sched (<[c := r.1]> held) h' = Some (h'', Return obs) ->
  run ((c, a) :: sched) held h = Some (h'', Return ((c, r.2) :: obs)).
Proof. intros H1 H2. cbn [run]. unfold bind. by rewrite H1, H2. Qed.

Lemma related_start c (h : heap) : wf h -> related c start h start h.
Proof.
  intros Hwf. pose proof (wf_template h Hwf) as H0.
  unfold related, start. repeat split; eauto using lookup_lt_Some.
Qed.

Lemma related_own c held1 (h1 : heap) held2 (h2 : heap) o a :
  related c held1 h1 held2 h2 -> h1 !! held1 c = Some o ->
  related c
    (<[c := (apply_effect (act_pure a o).1 (held1 c) h1).2]> held1)
    (apply_effect (act_pure a o).1 (held1 c) h1).1
    (<[c := (apply_effect (act_pure a o).1 (held2 c) h2).2]> held2)
    (apply_effect (act_pure a o).1 (held2 c) h2).1.
Proof.
  intros (Hwf1 & Hwf2 & Hb & Hinj & _ & Heq) Ho1.
  assert (Ho2 : h2 !! held2 c = Some o) by congruence.
  set (ef := (act_pure a o).1).
  destruct (effect_held h1 (held1 c) ef (Hb c)) as [Hlt Hcase].
  destruct (effect_object h1 h2 _ _ o ef Ho1 Ho2) as [Hobj Hsome].
  pose proof (effect_length h1 (held1 c) ef) as Hlen.
  repeat split.
  - by apply effect_wf.
  - by apply effect_wf.
  - intros c'. destruct (decide (c = c')) as [<-|Hc].
    + by rewrite fn_lookup_insert.
    + rewrite fn_lookup_insert_ne by done. specialize (Hb c'). lia.
  - intros c' Hc. rewrite fn_lookup_insert, fn_lookup_insert_ne by done.
    intros E. specialize (Hb c'). destruct Hcase as [Hcase|Hcase].
    + rewrite Hcase in *. by apply (Hinj c').
    + lia.
  - by rewrite fn_lookup_insert.
  - by rewrite !fn_lookup_insert.
Qed.

Lemma related_other c c' held1 (h1 : heap) held2 (h2 : heap) o a :
  c' <> c -> related c held1 h1 held2 h2 -> h1 !! held1 c' = Some o ->
  related c
    (<[c' := (apply_effect (act_pure a o).1 (held1 c') h1).2]> held1)
    (apply_effect (act_pure a o).1 (held1 c') h1).1
    held2 h2.
Proof.
  intros Hc (Hwf1 & Hwf2 & Hb & Hinj & Hsome & Heq) Ho.
  destruct (effect_held h1 (held1 c') (act_pure a o).1 (Hb c')) as [Hlt Hcase].
  pose proof (effect_length h1 (held1 c') (act_pure a o).1) as Hlen.
  repeat split; try done.
  - by apply effect_wf.
  - intros c''. destruct (decide (c' = c'')) as [<-|Hc''].
    + by rewrite fn_lookup_insert.
    + rewrite fn_lookup_insert_ne by done. specialize (Hb c''). lia.
  - intros c'' Hc''. rewrite (fn_lookup_insert_ne _ c' c) by done.
    destruct (decide (c' = c'')) as [<-|Hd].
    + rewrite fn_lookup_insert. intros E. specialize (Hb c).
      destruct Hcase as [Hcase|Hcase]; [|lia].
      apply (Hinj c'); congruence.
    + rewrite fn_lookup_insert_ne by done. by apply Hinj.
  - rewrite (fn_lookup_insert_ne _ c' c) by done. rewrite <- Heq.
    apply effect_frame; [done..|].
    destruct (decide (held1 c = held1 c')) as [E|]; [|by left].
    right. rewrite <- E. apply (Hinj c'); congruence.
Qed.

Lemma run_related sched c held1 (h1 : heap) held2 (h2 : heap) :
  related c held1 h1 held2 h2 ->
  exists h1' h2' obs,
    run sched held1 h1 = Some (h1', Return obs)
    /\ run (of_chain c sched) held2 h2 = Some (h2', Return (of_chain c obs)).
Proof.
  revert held1 h1 held2 h2.
  induction sched as [|[c' a] sched IH]; intros held1 h1 held2 h2 R.
  { by exists h1, h2, []. }
  pose proof R as (Hwf1 & Hwf2 & Hb & Hinj & [o Ho2] & Heq).
  destruct (lookup_lt_is_Some_2 h1 (held1 c') (Hb c')) as [o1 Ho1].
  pose proof (act_spec h1 _ o1 a Ho1) as Hact1.
  destruct (decide (c' = c)) as [->|Hc].
  - assert (o1 = o) as -> by congruence.
    pose proof (act_spec h2 _ o a Ho2) as Hact2.
    destruct (IH _ _ _ _ (related_own c _ _ _ _ o a R Ho1))
      as (h1' & h2' & obs & Hr1 & Hr2).
    exists h1', h2', ((c, (act_pure a o).2) :: obs). split.
    + by apply (run_cons _ _ _ _ _ _ _ _ _ Hact1).
    + unfold of_chain. rewrite !filter_cons_True by done.
      by apply (run_cons _ _ _ _ _ _ _ _ _ Hact2).
  - destruct (IH _ _ _ _ (related_other c c' _ _ _ _ o1 a Hc R Ho1))
      as (h1' & h2' & obs & Hr1 & Hr2).
    exists h1', h2', ((c', (act_pure a o1).2) :: obs). split.
    + by apply (run_cons _ _ _ _ _ _ _ _ _ Hact1).
    + unfold of_chain in *. by rewrite !filter_cons_False by done.
Qed.

(** What chain [c] observes in a schedule is what it observes when run
    alone. *)
Lemma chains_isolated sched c (h : heap) :
  wf h ->
  exists h1 h2 obs,
    run sched start h = Some (h1, Return obs)
    /\ run (of_chain c sched) start h = Some (h2, Return (of_chain c obs)).
Proof. intros Hwf. by apply run_related, related_start. Qed.

(** ** Rendering a selector *)

Lemma reset_reset o : reset (reset o) = reset o.
Proof. reflexivity. Qed.

(** [stringify] on a selector returns, and resets exactly the builder
    objects of the selector. *)
Lemma stringify_selector_post x (h : heap) :
  Forall (fun l => l < length h) (locs x) ->
  exists h' s,
    stringify_selector x h = Some (h', Return s)
    /\ length h' = length h
    /\ forall l, h' !! l
                 = if decide (l ∈ locs x) then reset <$> h !! l else h !! l.
Proof.
  revert h. induction x as [l0|a IHa b c IHc]; intros h Hb; cbn [locs] in *.
  - rewrite Forall_singleton in Hb.
    destruct (lookup_lt_is_Some_2 h l0 Hb) as [o Ho].
    exists (<[l0 := reset o]> h), (render o).
    split; [by apply stringify_at|]. split; [by rewrite length_insert|].
    intros l. case_decide as Hl.
    + apply list_elem_of_singleton in Hl as ->.
      by rewrite (lookup_written h l0 o _ Ho), Ho.
    + rewrite list_elem_of_singleton in Hl. by rewrite list_lookup_insert_ne.
  - apply Forall_app in Hb as [Hba Hbc].
    destruct (IHa h Hba) as (ha & sa & Ha & Hla & Hpa).
    rewrite <- Hla in Hbc.
    destruct (IHc ha Hbc) as (hc & sc & Hc & Hlc & Hpc).
    exists hc, (sa +:+ " " +:+ b +:+ " " +:+ sc).
    split; [|split; [congruence|]].
    + cbn [stringify_selector]. unfold bind. by rewrite Ha, Hc.
    + intros l. rewrite Hpc, Hpa.
      destruct (decide (l ∈ locs a)), (decide (l ∈ locs c));
        case_decide as Hl; rewrite elem_of_app in Hl;
        try tauto; destruct (h !! l); done.
Qed.

Lemma stringify_selector_wf x (h h' : heap) r :
  wf h -> stringify_selector x h = Some (h', r) -> wf h'.
Proof.
  revert h h' r. induction x as [l0|a IHa b c IHc]; intros h h' r Hwf;
    cbn [stringify_selector].
  - unfold stringify, bind, get. destruct (h !! l0) as [o|] eqn:Ho; [|done].
    rewrite (modify_at h l0 o _ Ho). intros [= <- _].
    apply (effect_wf h l0 o Render Hwf Ho).
  - unfold bind.
    destruct (stringify_selector a h) as [[ha [sa|e]]|] eqn:Ha; [| |done].
    + destruct (stringify_selector c ha) as [[hc [sc|e]]|] eqn:Hc; [| |done].
      * intros [= <- _]. eauto.
      * intros [= <- _]. eauto.
    + intros [= <- _]. eauto.
Qed.

(** What a selector renders depends on its own builder objects only. *)
Lemma stringify_selector_agree x (h1 h2 : heap) :
  Forall (fun l => l < length h1) (locs x) ->
  Forall (fun l => l < length h2) (locs x) ->
  (forall l, l ∈ locs x -> h1 !! l = h2 !! l) ->
  exists h1' h2' s,
    stringify_selector x h1 = Some (h1', Return s)
    /\ stringify_selector x h2 = Some (h2', Return s).
Proof.
  revert h1 h2. induction x as [l0|a IHa b c IHc]; intros h1 h2 Hb1 Hb2 Hag;
    cbn [locs] in *.
  - rewrite Forall_singleton in Hb1.
    destruct (lookup_lt_is_Some_2 h1 l0 Hb1) as [o Ho1].
    assert (Ho2 : h2 !! l0 = Some o).
    { rewrite <- Ho1. symmetry. apply Hag. by apply list_elem_of_singleton. }
    eexists _, _, _. split; by apply stringify_at.
  - apply Forall_app in Hb1 as [Hb1a Hb1c].
    apply Forall_app in Hb2 as [Hb2a Hb2c].
    destruct (stringify_selector_post a h1 Hb1a) as (ha1 & sa1 & Ha1 & Hl1 & Hp1).
    destruct (stringify_selector_post a h2 Hb2a) as (ha2 & sa2 & Ha2 & Hl2 & Hp2).
    destruct (IHa h1 h2 Hb1a Hb2a) as (? & ? & sa & Ha1' & Ha2').
    { intros l Hl. apply Hag, elem_of_app. by left. }
    rewrite Ha1 in Ha1'. rewrite Ha2 in Ha2'.
    injection Ha1' as <- <-. injection Ha2' as <- ->.
    rewrite <- Hl1 in Hb1c. rewrite <- Hl2 in Hb2c.
    destruct (IHc ha1 ha2 Hb1c Hb2c) as (hc1 & hc2 & sc & Hc1 & Hc2).
    { intros l Hl. rewrite Hp1, Hp2.
      assert (h1 !! l = h2 !! l) as -> by (apply Hag, elem_of_app; by right).
      done. }
    exists hc1, hc2, (sa1 +:+ " " +:+ b +:+ " " +:+ sc).
    cbn [stringify_selector]. unfold bind.
    by rewrite Ha1, Ha2, Hc1, Hc2.
Qed.

(** C5, as the code has it. For selectors [A] and [B] that share no builder
    object holding a fragment, and any combinator string,
    [combine(A, symbol, B).stringify()] is the string [A] renders, a space,
    the combinator, a space, and the string [B] renders, each rendered once
    from the same store. *)
Theorem C5_combine_joins (h : heap) A symbol B :
  Forall (fun l => l < length h) (locs A) ->
  Forall (fun l => l < length h) (locs B) ->
  (forall l o, l ∈ locs A -> l ∈ locs B -> h !! l = Some o -> reset o = o) ->
  exists hA rA hB rB h',
    stringify_selector A h = Some (hA, Return rA)
    /\ stringify_selector B h = Some (hB, Return rB)
    /\ stringify_selector (combine A symbol B) h
       = Some (h', Return (rA +:+ " " +:+ symbol +:+ " " +:+ rB)).
Proof.
  intros HbA HbB Hshare.
  destruct (stringify_selector_post A h HbA) as (hA & rA & HA & HlA & HpA).
  assert (HbB' : Forall (fun l => l < length hA) (locs B)) by by rewrite HlA.
  destruct (stringify_selector_agree B h hA HbB HbB')
    as (hB & h' & rB & HB & HB').
  { intros l Hl. rewrite HpA. case_decide as HlA'; [|done].
    destruct (h !! l) as [o|] eqn:Ho; [|done].
    cbn. by rewrite (Hshare l o HlA' Hl Ho). }
  exists hA, rA, hB, rB, h'. split; [done|]. split; [done|].
  unfold combine. cbn [stringify_selector]. unfold bind. by rewrite HA, HB'.
Qed.

(** The two renderings of a combination come one after the other. *)
Lemma combine_in_sequence A symbol B :
  stringify_selector (combine A symbol B)
  = (rA <- stringify_selector A ;;
     rB <- stringify_selector B ;;
     ret (rA +:+ " " +:+ symbol +:+ " " +:+ rB)).
Proof. reflexivity. Qed.

Lemma C5_witness :
  exists hA hB h',
    stringify_selector (Simple 1)
      [template; Fragset false "div" "main" [] [] [] "";
       Fragset false "p" "" ["lead"] [] [] ""]
    = Some (hA, Return "div#main")
    /\ stringify_selector (Simple 2)
         [template; Fragset false "div" "main" [] [] [] "";
          Fragset false "p" "" ["lead"] [] [] ""]
       = Some (hB, Return "p.lead")
    /\ stringify_selector (combine (Simple 1) ">" (Simple 2))
         [template; Fragset false "div" "main" [] [] [] "";
          Fragset false "p" "" ["lead"] [] [] ""]
       = Some (h', Return "div#main > p.lead").
Proof.
  destruct (C5_combine_joins
              [template; Fragset false "div" "main" [] [] [] "";
               Fragset false "p" "" ["lead"] [] [] ""]
              (Simple 1) ">" (Simple 2))
    as (hA & rA & hB & rB & h' & HA & HB & HC).
  - repeat constructor.
  - repeat constructor.
  - intros l o H1 H2. apply list_elem_of_singleton in H1, H2. lia.
  - exists hA, hB, h'.
    assert (rA = "div#main") as -> by (vm_compute in HA; congruence).
    assert (rB = "p.lead") as -> by (vm_compute in HB; congruence).
    auto.
Defined.

(** C5 as stated fails when [A] and [B] are one builder object: rendered
    once it gives ["a"], but in the combination the right-hand rendering
    comes after the left-hand one has reset the object. *)
Lemma C5_counterexample :
  (exists h, (s <- element 0 "a" ;; stringify_selector (Simple s)) initial
             = Some (h, Return "a"))
  /\ (exists h, (s <- element 0 "a" ;;
                 stringify_selector (combine (Simple s) "+" (Simple s))) initial
                = Some (h, Return "a + "))
  /\ "a + " <> "a" +:+ " " +:+ "+" +:+ " " +:+ "a".
Proof.
  split; [|split].
  - eexists. vm_compute. reflexivity.
  - eexists. vm_compute. reflexivity.
  - discriminate.
Qed.

(** ** Public calls keep the builder *)

Lemma exec_wf (h : heap) cmd :
  wf h -> Forall (fun l => l < length h) (targets cmd) ->
  exists h' r, exec cmd h = Some (h', r) /\ wf h'.
Proof.
  intros Hwf Hb. destruct cmd as [l|k l|x]; cbn [exec targets] in *.
  - rewrite Forall_singleton in Hb.
    destruct (lookup_lt_is_Some_2 h l Hb) as [o Ho].
    exists (h ++ [fresh]), (Return tt). unfold bind.
    rewrite (clear_at h l o Ho). split; [done|]. by apply wf_snoc.
  - rewrite Forall_singleton in Hb.
    destruct (lookup_lt_is_Some_2 h l Hb) as [o Ho].
    pose proof (act_spec h l o (Add k) Ho) as Ha.
    pose proof (effect_wf h l o (Add k) Hwf Ho) as Hw.
    exists (apply_effect (act_pure (Add k) o).1 l h).1, (Return tt).
    split; [|done].
    cbn [act] in Ha. unfold bind, catch in *.
    destruct (apply_op k l h) as [[h1 r1]|]; [|done].
    destruct r1; by injection Ha as ->.
  - destruct (stringify_selector_post x h Hb) as (h' & s & Hs & _).
    exists h', (Return tt). unfold bind. rewrite Hs. split; [done|].
    by eapply stringify_selector_wf.
Qed.

(** C6. In a store the builder heads: a fragment-adding call made on the
    builder returns a new object, the clone with the fragment added, and
    leaves the builder in place; every public call on objects of the store
    returns or raises in a store the builder still heads, all its fragments
    empty; and in any interleaving of chains started on the builder, each
    chain observes (results of calls, exceptions, rendered strings) what it
    observes when it runs alone. *)
Theorem C6_chains_do_not_share (h : heap) :
  wf h ->
  (forall k,
     apply_op k 0 h = Some (h ++ [(step k fresh).1], Return (length h)))
  /\ (forall cmd,
        Forall (fun l => l < length h) (targets cmd) ->
        exists h' r, exec cmd h = Some (h', r)
                     /\ h' !! 0 = Some template /\ wf h')
  /\ (forall sched c,
        exists h1 h2 obs,
          run sched start h = Some (h1, Return obs)
          /\ run (of_chain c sched) start h
             = Some (h2, Return (of_chain c obs))).
Proof.
  intros Hwf. split; [|split].
  - intros k.
    rewrite (apply_op_template h 0 template k (wf_template h Hwf) eq_refl).
    by rewrite step_fresh.
  - intros cmd Hb. destruct (exec_wf h cmd Hwf Hb) as (h' & r & He & Hw).
    exists h', r. eauto using wf_template.
  - intros sched c. by apply chains_isolated.
Qed.

Lemma C6_witness :
  wf initial
  /\ apply_op (OpElement "div") 0 initial
     = Some (initial ++ [(step (OpElement "div") fresh).1], Return 1)
  /\ (exists h' r,
        exec (CallStringify (Simple 0)) initial = Some (h', r)
        /\ h' !! 0 = Some template /\ wf h')
  /\ (exists h1 h2 obs,
        run [(0, Add (OpElement "div")); (1, Add (OpId "main"));
             (1, Add (OpPseudoElement "after")); (0, Add (OpClass "c"));
             (1, Render); (0, Render)] start initial
        = Some (h1, Return obs)
        /\ run (of_chain 0
                  [(0, Add (OpElement "div")); (1, Add (OpId "main"));
                   (1, Add (OpPseudoElement "after")); (0, Add (OpClass "c"));
                   (1, Render); (0, Render)]) start initial
           = Some (h2, Return (of_chain 0 obs))).
Proof.
  destruct (C6_chains_do_not_share initial wf_initial) as (Ha & Hb & Hc).
  split; [exact wf_initial|]. split; [exact (Ha _)|]. split.
  - apply Hb. repeat constructor.
  - apply Hc.
Defined.

(** ** Which chains the builder accepts *)

Lemma length_ne_snoc (l : list string) v : length_ne (l ++ [v]) 0 = true.
Proof. unfold length_ne. rewrite length_app. cbn. by rewrite Nat.add_1_r. Qed.

Lemma step_level k o :
  named k = true ->
  ((step k o).2 = None <-> may_follow (level o) (category k) = true)
  /\ ((step k o).2 = None -> level (step k o).1 = category k).
Proof.
  intros Hn.
  destruct (strict_ne (namePE o) "") eqn:E6, (length_ne (namePC o) 0) eqn:E5,
    (length_ne (nameAt o) 0) eqn:E4, (length_ne (nameCl o) 0) eqn:E3,
    (strict_ne (nameID o) "") eqn:E2, (strict_ne (nameEl o) "") eqn:E1;
    destruct k as [v|v|v|v|v|v]; cbn [step category named] in *;
    unfold level, may_follow;
    cbn [namePE namePC nameAt nameCl nameID nameEl set_nameEl set_nameID
         set_nameCl set_nameAt set_namePC set_namePE];
    rewrite ?E1, ?E2, ?E3, ?E4, ?E5, ?E6; cbn [orb fst snd];
    cbn [namePE namePC nameAt nameCl nameID nameEl set_nameEl set_nameID
         set_nameCl set_nameAt set_namePC set_namePE];
    rewrite ?length_ne_snoc, ?Hn, ?E1, ?E2, ?E3, ?E4, ?E5, ?E6;
    split; try split; try done.
Qed.

Lemma steps_ordered ks o :
  forallb named ks = true ->
  (steps ks o).2 = None <-> ordered_from (level o) ks = true.
Proof.
  revert o. induction ks as [|k ks IH]; intros o Hn; [done|].
  cbn [forallb] in Hn. apply andb_true_iff in Hn as [Hk Hks].
  destruct (step_level k o Hk) as [Hiff Hlev].
  cbn [steps ordered_from]. rewrite andb_true_iff, <- Hiff.
  destruct (step k o) as [o' [e|]]; cbn [fst snd] in *.
  - split; [done|]. by intros [? _].
  - rewrite (IH o' Hks), (Hlev eq_refl). tauto.
Qed.

Lemma returned_step_outcome l e :
  returned (step_outcome l e) = true <-> e = None.
Proof. by destruct e. Qed.

(** X1. A chain of calls started on the builder, no element, id or
    pseudo-element given an empty name, runs to its end without an
    exception exactly when its calls are in grammar order: no call comes
    after a call of a later place of the grammar, and element, id and
    pseudo-element come at most once. Otherwise it raises. *)
Theorem X1_accepts_exactly_grammar_order (h : heap) ks :
  h !! 0 = Some template -> forallb named ks = true ->
  exists h' r,
    run_chain 0 ks h = Some (h', r)
    /\ (returned r = true <-> grammar_ordered ks = true).
Proof.
  intros H0 Hn. destruct ks as [|k ks].
  - by exists h, (Return 0).
  - eexists _, _. split.
    + apply (run_chain_template h 0 template k ks H0 eq_refl).
    + rewrite returned_step_outcome. by apply steps_ordered.
Qed.

Lemma X1_witness :
  initial !! 0 = Some template
  /\ (exists h',
        run_chain 0 [OpElement "a"; OpClass "b"; OpClass "c"; OpPseudoClass "d"]
          initial = Some (h', Return 1))
  /\ (exists h',
        run_chain 0 [OpClass "b"; OpElement "a"] initial
        = Some (h', Throw OutOfOrderError)).
Proof.
  split; [reflexivity|]. split.
  - destruct (X1_accepts_exactly_grammar_order initial
                [OpElement "a"; OpClass "b"; OpClass "c"; OpPseudoClass "d"]
                eq_refl eq_refl) as (h' & r & Hr & Hiff).
    exists h'. rewrite Hr. vm_compute in Hr. by injection Hr as _ <-.
  - destruct (X1_accepts_exactly_grammar_order initial
                [OpClass "b"; OpElement "a"] eq_refl eq_refl)
      as (h' & r & Hr & Hiff).
    exists h'. rewrite Hr. vm_compute in Hr. by injection Hr as _ <-.
Defined.

(** *** Grammar order, by parts *)

Lemma may_follow_mono p q c :
  p <= q -> may_follow q c = true -> may_follow p c = true.
Proof.
  unfold may_follow. destruct (once c).
  - rewrite !Nat.ltb_lt. lia.
  - rewrite !Nat.leb_le. lia.
Qed.

Lemma ordered_from_mono p q ks :
  p <= q -> ordered_from q ks = true -> ordered_from p ks = true.
Proof.
  intros Hpq. destruct ks as [|k ks]; [done|]. cbn [ordered_from].
  rewrite !andb_true_iff. intros [H1 H2]. split; [|done].
  by apply may_follow_mono with q.
Qed.

Lemma ordered_pseudoElement pe :
  ordered_from 5 (option_list (OpPseudoElement <$> pe)) = true.
Proof. by destruct pe. Qed.

Lemma ordered_pseudoClasses pcs ks :
  ordered_from 5 ks = true ->
  ordered_from 5 ((OpPseudoClass <$> pcs) ++ ks) = true.
Proof. intros H. induction pcs as [|v pcs IH]; [done|]. cbn. by rewrite IH. Qed.

Lemma ordered_attrs ats ks :
  ordered_from 4 ks = true -> ordered_from 4 ((OpAttr <$> ats) ++ ks) = true.
Proof. intros H. induction ats as [|v ats IH]; [done|]. cbn. by rewrite IH. Qed.

Lemma ordered_classes cls ks :
  ordered_from 3 ks = true -> ordered_from 3 ((OpClass <$> cls) ++ ks) = true.
Proof. intros H. induction cls as [|v cls IH]; [done|]. cbn. by rewrite IH. Qed.

Lemma grammar_chain_ordered el ident cls ats pcs pe :
  grammar_ordered (grammar_chain el ident cls ats pcs pe) = true.
Proof.
  unfold grammar_ordered, grammar_chain.
  assert (H3 : ordered_from 3
                 ((OpClass <$> cls) ++ (OpAttr <$> ats)
                  ++ (OpPseudoClass <$> pcs)
                  ++ option_list (OpPseudoElement <$> pe)) = true).
  { apply ordered_classes, (ordered_from_mono 3 4); [lia|].
    apply ordered_attrs, (ordered_from_mono 4 5); [lia|].
    apply ordered_pseudoClasses, ordered_pseudoElement. }
  destruct el as [e|], ident as [i|]; cbn [fmap option_fmap option_map option_list app ordered_from category].
  - change (may_follow 0 1) with true. change (may_follow 1 2) with true.
    cbn [andb]. by apply (ordered_from_mono 2 3); [lia|].
  - change (may_follow 0 1) with true. cbn [andb].
    by apply (ordered_from_mono 1 3); [lia|].
  - change (may_follow 0 2) with true. cbn [andb].
    by apply (ordered_from_mono 2 3); [lia|].
  - by apply (ordered_from_mono 0 3); [lia|].
Qed.

Lemma ordered_from_6 ks : ordered_from 6 ks = true -> ks = [].
Proof. by destruct ks as [|[] ks]. Qed.

Lemma ordered_from_5 ks :
  ordered_from 5 ks = true ->
  exists pcs pe,
    ks = (OpPseudoClass <$> pcs) ++ option_list (OpPseudoElement <$> pe).
Proof.
  induction ks as [|k ks IH]; [by exists [], None|].
  destruct k as [v|v|v|v|v|v]; try discriminate; cbn [ordered_from category];
    change (may_follow 5 5) with true; change (may_follow 5 6) with true;
    cbn [andb]; intros H.
  - destruct (IH H) as (pcs & pe & ->). by exists (v :: pcs), pe.
  - rewrite (ordered_from_6 ks H). by exists [], (Some v).
Qed.

Lemma ordered_from_4 ks :
  ordered_from 4 ks = true ->
  exists ats pcs pe,
    ks = (OpAttr <$> ats) ++ (OpPseudoClass <$> pcs)
         ++ option_list (OpPseudoElement <$> pe).
Proof.
  induction ks as [|k ks IH]; [by exists [], [], None|].
  destruct k as [v|v|v|v|v|v]; try discriminate; cbn [ordered_from category];
    change (may_follow 4 4) with true; change (may_follow 4 5) with true;
    change (may_follow 4 6) with true; cbn [andb]; intros H.
  - destruct (IH H) as (ats & pcs & pe & ->). by exists (v :: ats), pcs, pe.
  - destruct (ordered_from_5 ks H) as (pcs & pe & ->).
    by exists [], (v :: pcs), pe.
  - rewrite (ordered_from_6 ks H). by exists [], [], (Some v).
Qed.

Lemma ordered_from_3 ks :
  ordered_from 3 ks = true ->
  exists cls ats pcs pe, ks = grammar_chain None None cls ats pcs pe.
Proof.
  unfold grammar_chain. cbn [fmap option_fmap option_map option_list app].
  induction ks as [|k ks IH]; [by exists [], [], [], None|].
  destruct k as [v|v|v|v|v|v]; try discriminate; cbn [ordered_from category];
    change (may_follow 3 3) with true; change (may_follow 3 4) with true;
    change (may_follow 3 5) with true; change (may_follow 3 6) with true;
    cbn [andb]; intros H.
  - destruct (IH H) as (cls & ats & pcs & pe & ->).
    by exists (v :: cls), ats, pcs, pe.
  - destruct (ordered_from_4 ks H) as (ats & pcs & pe & ->).
    by exists [], (v :: ats), pcs, pe.
  - destruct (ordered_from_5 ks H) as (pcs & pe & ->).
    by exists [], [], (v :: pcs), pe.
  - rewrite (ordered_from_6 ks H). by exists [], [], [], (Some v).
Qed.

Lemma ordered_from_2_3 ks : ordered_from 2 ks = ordered_from 3 ks.
Proof. by destruct ks as [|[] ks]. Qed.

Lemma ordered_from_1 ks :
  ordered_from 1 ks = true ->
  exists ident cls ats pcs pe, ks = grammar_chain None ident cls ats pcs pe.
Proof.
  destruct ks as [|k ks]; [by exists None, [], [], [], None|].
  destruct (decide (category k = 2)) as [Hk|Hk].
  - destruct k as [v|v|v|v|v|v]; try discriminate.
    cbn [ordered_from category]. change (may_follow 1 2) with true.
    cbn [andb]. rewrite ordered_from_2_3. intros H.
    destruct (ordered_from_3 ks H) as (cls & ats & pcs & pe & ->).
    by exists (Some v), cls, ats, pcs, pe.
  - intros H.
    assert (H3 : ordered_from 3 (k :: ks) = true)
      by (by destruct k as [v|v|v|v|v|v]).
    destruct (ordered_from_3 _ H3) as (cls & ats & pcs & pe & ->).
    by exists None, cls, ats, pcs, pe.
Qed.

(** The lists of calls in grammar order are the chains of an optional
    element, an optional id, classes, attributes, pseudo-classes and an
    optional pseudo-element. *)
Lemma grammar_ordered_chain ks :
  grammar_ordered ks = true <->
  exists el ident cls ats pcs pe, ks = grammar_chain el ident cls ats pcs pe.
Proof.
  split.
  - unfold grammar_ordered.
    destruct ks as [|k ks]; [by exists None, None, [], [], [], None|].
    destruct (decide (category k = 1)) as [Hk|Hk].
    + destruct k as [v|v|v|v|v|v]; try discriminate.
      cbn [ordered_from category]. change (may_follow 0 1) with true.
      cbn [andb]. intros H.
      destruct (ordered_from_1 ks H) as (ident & cls & ats & pcs & pe & ->).
      by exists (Some v), ident, cls, ats, pcs, pe.
    + intros H.
      assert (H1 : ordered_from 1 (k :: ks) = true)
        by (by destruct k as [v|v|v|v|v|v]).
      destruct (ordered_from_1 _ H1) as (ident & cls & ats & pcs & pe & ->).
      by exists None, ident, cls, ats, pcs, pe.
  - intros (el & ident & cls & ats & pcs & pe & ->).
    apply grammar_chain_ordered.
Qed.

(** ** What each call does to a chain object *)

Lemma strict_ne_false a b : strict_ne a b = false <-> a = b.
Proof.
  unfold strict_ne. rewrite negb_false_iff.
  destruct (String.eqb_spec a b); split; congruence.
Qed.

Lemma length_ne_0_false (l : list string) : length_ne l 0 = false <-> l = [].
Proof. destruct l; cbn; split; congruence. Qed.

Lemma call_local (h : heap) l o k :
  h !! l = Some o -> isBasic o = false ->
  (step k o).1 = o ->
  apply_op k l h = Some (h, step_outcome l (step k o).2).
Proof.
  intros H Hb Ho. rewrite (apply_op_local h l o k H Hb), Ho.
  by rewrite list_insert_id.
Qed.

(** X2. [class] on a chain object raises the order error exactly when the
    object has an attribute, a pseudo-class or a pseudo-element, and then
    leaves the store as it is; otherwise it appends the class to the
    classes of the object, whatever classes are there, and returns the
    object. *)
Theorem X2_class_contract (h : heap) l o v :
  h !! l = Some o -> isBasic o = false ->
  (nameAt o <> [] \/ namePC o <> [] \/ namePE o <> "" ->
   class l v h = Some (h, Throw OutOfOrderError))
  /\ (nameAt o = [] -> namePC o = [] -> namePE o = "" ->
      class l v h
      = Some (<[l := set_nameCl (nameCl o ++ [v]) o]> h, Return l)).
Proof.
  intros H Hb. change (class l v h) with (apply_op (OpClass v) l h). split.
  - intros Hp.
    assert (Ht : strict_ne (namePE o) "" || length_ne (namePC o) 0
                 || length_ne (nameAt o) 0 = true).
    { rewrite !orb_true_iff, strict_ne_true, !length_ne_0. tauto. }
    rewrite (call_local h l o _ H Hb); cbn [step]; by rewrite Ht.
  - intros Ha Hc He.
    rewrite (apply_op_local h l o _ H Hb). cbn [step].
    by rewrite Ha, Hc, He.
Qed.

Lemma X2_witness :
  class 1 "c" [template; Fragset false "a" "" ["b"] [] ["hover"] ""]
  = Some ([template; Fragset false "a" "" ["b"] [] ["hover"] ""],
          Throw OutOfOrderError)
  /\ class 1 "c" [template; Fragset false "a" "" ["b"] [] [] ""]
     = Some ([template; Fragset false "a" "" ["b"; "c"] [] [] ""], Return 1).
Proof.
  split.
  - apply (X2_class_contract
             [template; Fragset false "a" "" ["b"] [] ["hover"] ""] 1 _ "c"
             eq_refl eq_refl).
    right. by left.
  - by apply (X2_class_contract
                [template; Fragset false "a" "" ["b"] [] [] ""] 1 _ "c"
                eq_refl eq_refl).
Defined.

(** X3. [pseudoClass] on a chain object raises the order error exactly
    when the object has a pseudo-element, and then leaves the store as it
    is; otherwise it appends the pseudo-class and returns the object. *)
Theorem X3_pseudoClass_contract (h : heap) l o v :
  h !! l = Some o -> isBasic o = false ->
  (namePE o <> "" -> pseudoClass l v h = Some (h, Throw OutOfOrderError))
  /\ (namePE o = "" ->
      pseudoClass l v h
      = Some (<[l := set_namePC (namePC o ++ [v]) o]> h, Return l)).
Proof.
  intros H Hb.
  change (pseudoClass l v h) with (apply_op (OpPseudoClass v) l h). split.
  - intros Hp%strict_ne_true.
    rewrite (call_local h l o _ H Hb); cbn [step]; by rewrite Hp.
  - intros He. rewrite (apply_op_local h l o _ H Hb). cbn [step].
    by rewrite He.
Qed.

Lemma X3_witness :
  pseudoClass 1 "hover" [template; Fragset false "a" "" [] [] [] "after"]
  = Some ([template; Fragset false "a" "" [] [] [] "after"],
          Throw OutOfOrderError)
  /\ pseudoClass 1 "hover" [template; Fragset false "a" "" [] [] ["focus"] ""]
     = Some ([template; Fragset false "a" "" [] [] ["focus"; "hover"] ""],
             Return 1).
Proof.
  split.
  - by apply (X3_pseudoClass_contract
                [template; Fragset false "a" "" [] [] [] "after"] 1 _ "hover"
                eq_refl eq_refl).
  - by apply (X3_pseudoClass_contract
                [template; Fragset false "a" "" [] [] ["focus"] ""] 1 _ "hover"
                eq_refl eq_refl).
Defined.

(** X4. [element] on a chain object with no element set: it raises the
    order error when the object has any other fragment (id, class,
    attribute, pseudo-class or pseudo-element), and then leaves the store
    as it is; on an object with no fragment it sets the element and
    returns the object. *)
Theorem X4_element_contract (h : heap) l o v :
  h !! l = Some o -> isBasic o = false -> nameEl o = "" ->
  (nameID o <> "" \/ nameCl o <> [] \/ nameAt o <> [] \/ namePC o <> []
   \/ namePE o <> "" ->
   element l v h = Some (h, Throw OutOfOrderError))
  /\ (nameID o = "" -> nameCl o = [] -> nameAt o = [] -> namePC o = [] ->
      namePE o = "" ->
      element l v h = Some (<[l := set_nameEl v o]> h, Return l)).
Proof.
  intros H Hb Hel.
  change (element l v h) with (apply_op (OpElement v) l h). split.
  - intros Hp.
    assert (Ht : strict_ne (namePE o) "" || length_ne (namePC o) 0
                 || length_ne (nameAt o) 0 || length_ne (nameCl o) 0
                 || strict_ne (nameID o) "" = true).
    { rewrite !orb_true_iff, !strict_ne_true, !length_ne_0. tauto. }
    rewrite (call_local h l o _ H Hb); cbn [step]; by rewrite Hel, Ht.
  - intros Hi Hc Ha Hp He.
    rewrite (apply_op_local h l o _ H Hb). cbn [step].
    by rewrite Hel, Hi, Hc, Ha, Hp, He.
Qed.

Lemma X4_witness :
  element 1 "div" [template; Fragset false "" "" ["c"] [] [] ""]
  = Some ([template; Fragset false "" "" ["c"] [] [] ""], Throw OutOfOrderError)
  /\ element 1 "div" [template; Fragset false "" "" [] [] [] ""]
     = Some ([template; Fragset false "div" "" [] [] [] ""], Return 1).
Proof.
  split.
  - apply (X4_element_contract
             [template; Fragset false "" "" ["c"] [] [] ""] 1 _ "div"
             eq_refl eq_refl eq_refl).
    right. by left.
  - by apply (X4_element_contract
                [template; Fragset false "" "" [] [] [] ""] 1 _ "div"
                eq_refl eq_refl eq_refl).
Defined.

(** X5. [id] on a chain object: it raises the duplicate error when an id
    is set, whatever else the object has; with no id set it raises the
    order error when the object has a class, an attribute, a pseudo-class
    or a pseudo-element; the store is as it was in both cases. Otherwise,
    an element set or not, it sets the id and returns the object. *)
Theorem X5_id_contract (h : heap) l o v :
  h !! l = Some o -> isBasic o = false ->
  (nameID o <> "" -> id l v h = Some (h, Throw DuplicateFragmentError))
  /\ (nameID o = "" ->
      nameCl o <> [] \/ nameAt o <> [] \/ namePC o <> [] \/ namePE o <> "" ->
      id l v h = Some (h, Throw OutOfOrderError))
  /\ (nameID o = "" -> nameCl o = [] -> nameAt o = [] -> namePC o = [] ->
      namePE o = "" ->
      id l v h = Some (<[l := set_nameID v o]> h, Return l)).
Proof.
  intros H Hb. change (id l v h) with (apply_op (OpId v) l h).
  split; [|split].
  - intros Hi%strict_ne_true.
    rewrite (call_local h l o _ H Hb); cbn [step]; by rewrite Hi.
  - intros Hi Hp.
    assert (Ht : strict_ne (namePE o) "" || length_ne (namePC o) 0
                 || length_ne (nameAt o) 0 || length_ne (nameCl o) 0 = true).
    { rewrite !orb_true_iff, !strict_ne_true, !length_ne_0. tauto. }
    rewrite (call_local h l o _ H Hb); cbn [step]; by rewrite Hi, Ht.
  - intros Hi Hc Ha Hp He.
    rewrite (apply_op_local h l o _ H Hb). cbn [step].
    by rewrite Hi, Hc, Ha, Hp, He.
Qed.

Lemma X5_witness :
  id 1 "x" [template; Fragset false "a" "main" ["c"] [] [] ""]
  = Some ([template; Fragset false "a" "main" ["c"] [] [] ""],
          Throw DuplicateFragmentError)
  /\ id 1 "x" [template; Fragset false "a" "" [] ["href"] [] ""]
     = Some ([template; Fragset false "a" "" [] ["href"] [] ""],
             Throw OutOfOrderError)
  /\ id 1 "x" [template; Fragset false "a" "" [] [] [] ""]
     = Some ([template; Fragset false "a" "x" [] [] [] ""], Return 1).
Proof.
  split; [|split].
  - by apply (X5_id_contract
                [template; Fragset false "a" "main" ["c"] [] [] ""] 1 _ "x"
                eq_refl eq_refl).
  - apply (X5_id_contract
             [template; Fragset false "a" "" [] ["href"] [] ""] 1 _ "x"
             eq_refl eq_refl); [done|].
    right. by left.
  - by apply (X5_id_contract
                [template; Fragset false "a" "" [] [] [] ""] 1 _ "x"
                eq_refl eq_refl).
Defined.

(** X6. [pseudoElement] never raises the order error: on a chain object
    with no pseudo-element set it sets the pseudo-element and returns the
    object, whatever other fragments the object has. *)
Theorem X6_pseudoElement_after_anything (h : heap) l o v :
  h !! l = Some o -> isBasic o = false -> namePE o = "" ->
  pseudoElement l v h = Some (<[l := set_namePE v o]> h, Return l).
Proof.
  intros H Hb He.
  change (pseudoElement l v h) with (apply_op (OpPseudoElement v) l h).
  rewrite (apply_op_local h l o _ H Hb). cbn [step]. by rewrite He.
Qed.

Lemma X6_witness :
  pseudoElement 1 "after"
    [template; Fragset false "a" "i" ["c"] ["x"] ["hover"] ""]
  = Some ([template; Fragset false "a" "i" ["c"] ["x"] ["hover"] "after"],
          Return 1).
Proof.
  exact (X6_pseudoElement_after_anything
           [template; Fragset false "a" "i" ["c"] ["x"] ["hover"] ""] 1 _
           "after" eq_refl eq_refl eq_refl).
Defined.

(** X7. [attr] on a chain object appends the attribute to the attributes of
    the object in every case; it raises the order error exactly when the
    object has a pseudo-class or a pseudo-element, and returns the object
    otherwise. *)
Theorem X7_attr_contract (h : heap) l o v :
  h !! l = Some o -> isBasic o = false ->
  exists r,
    attr l v h = Some (<[l := set_nameAt (nameAt o ++ [v]) o]> h, r)
    /\ (r = Throw OutOfOrderError <-> namePC o <> [] \/ namePE o <> "")
    /\ (r = Return l <-> namePC o = [] /\ namePE o = "").
Proof.
  intros H Hb. change (attr l v h) with (apply_op (OpAttr v) l h).
  rewrite (apply_op_local h l o _ H Hb). cbn [step fst snd].
  cbn [namePE namePC set_nameAt].
  destruct (strict_ne (namePE o) "") eqn:He, (length_ne (namePC o) 0) eqn:Hp;
    cbn [orb]; eexists; (split; [reflexivity|]);
    rewrite ?strict_ne_true, ?strict_ne_false in He;
    rewrite ?length_ne_0, ?length_ne_0_false in Hp;
    cbn [step_outcome]; split; split; try done; try tauto;
    intros [? ?]; congruence.
Qed.

Lemma X7_witness :
  attr 1 "href" [template; Fragset false "a" "" [] [] ["focus"] ""]
  = Some ([template; Fragset false "a" "" [] ["href"] ["focus"] ""],
          Throw OutOfOrderError).
Proof.
  destruct (X7_attr_contract
              [template; Fragset false "a" "" [] [] ["focus"] ""] 1 _ "href"
              eq_refl eq_refl) as (r & Hr & Ht & _).
  rewrite Hr. f_equal. f_equal. apply Ht. by left.
Defined.

(** X8. Of the six fragment-adding methods only [attr] writes before it
    raises: a call of any other, on the builder or on a chain object, that
    raises leaves the store as it was. *)
Theorem X8_raising_call_writes_nothing (h : heap) l o k :
  wf h -> h !! l = Some o -> category k <> 4 ->
  exists h' r,
    apply_op k l h = Some (h', r) /\ (returned r = false -> h' = h).
Proof.
  intros Hwf H Hk. destruct (isBasic o) eqn:Hb.
  - rewrite (apply_op_template h l o k H Hb), step_fresh.
    eexists _, _. split; [reflexivity|]. done.
  - rewrite (apply_op_local h l o k H Hb).
    eexists _, _. split; [reflexivity|].
    destruct k as [v|v|v|v|v|v]; try done; cbn [step];
      repeat match goal with
             | |- context [if ?b then _ else _] => destruct b
             end; cbn [fst snd step_outcome returned]; try done;
      intros _; by apply list_insert_id.
Qed.

Lemma X8_witness :
  wf [template; Fragset false "a" "" ["c"] [] [] ""]
  /\ exists h' r,
       apply_op (OpId "x") 1 [template; Fragset false "a" "" ["c"] [] [] ""]
       = Some (h', r)
       /\ (returned r = false ->
           h' = [template; Fragset false "a" "" ["c"] [] [] ""]).
Proof.
  assert (Hwf : wf [template; Fragset false "a" "" ["c"] [] [] ""]).
  { eexists. split; [reflexivity|]. by repeat constructor. }
  split; [exact Hwf|].
  apply (X8_raising_call_writes_nothing _ 1 _ (OpId "x") Hwf eq_refl).
  discriminate.
Defined.

(** X9. [clear] returns a new object with no fragment and [isBasic] off,
    whatever fragments the object it is called on has, and leaves that
    object and every other object of the store as they are. *)
Theorem X9_clear_makes_new_empty (h : heap) l o :
  h !! l = Some o ->
  exists h',
    clear l h = Some (h', Return (length h))
    /\ h !! length h = None
    /\ h' !! length h = Some fresh
    /\ forall l', l' < length h -> h' !! l' = h !! l'.
Proof.
  intros H. exists (h ++ [fresh]). split; [by apply clear_at with o|].
  split; [by apply lookup_ge_None|]. split; [apply lookup_fresh|].
  intros l' Hl'. by apply lookup_app_l.
Qed.

Lemma X9_witness :
  exists h',
    clear 1 [template; Fragset false "a" "i" ["c"] [] [] ""]
    = Some (h', Return 2)
    /\ [template; Fragset false "a" "i" ["c"] [] [] ""] !! 2 = None
    /\ h' !! 2 = Some fresh
    /\ forall l', l' < 2 ->
         h' !! l' = [template; Fragset false "a" "i" ["c"] [] [] ""] !! l'.
Proof.
  exact (X9_clear_makes_new_empty
           [template; Fragset false "a" "i" ["c"] [] [] ""] 1 _ eq_refl).
Defined.

(** ** Rendering selectors *)

(** X10. [stringify] on a selector, a chain object or a combination of any
    depth, never raises; it resets every builder object the selector is
    made of and leaves every other object of the store as it is. *)
Theorem X10_render_resets_own_objects x (h : heap) :
  Forall (fun l => l < length h) (locs x) ->
  exists h' s,
    stringify_selector x h = Some (h', Return s)
    /\ length h' = length h
    /\ forall l, h' !! l
                 = if decide (l ∈ locs x) then reset <$> h !! l else h !! l.
Proof. apply stringify_selector_post. Qed.

Lemma X10_witness :
  exists h' s,
    stringify_selector (combine (Simple 1) ">" (Simple 3))
      [template; Fragset false "ul" "" [] [] [] "";
       Fragset false "p" "" [] [] [] ""; Fragset false "li" "" [] [] [] ""]
    = Some (h', Return s)
    /\ length h' = 4
    /\ forall l, h' !! l
                 = if decide (l ∈ [1; 3])
                   then reset <$>
                          [template; Fragset false "ul" "" [] [] [] "";
                           Fragset false "p" "" [] [] [] "";
                           Fragset false "li" "" [] [] [] ""] !! l
                   else [template; Fragset false "ul" "" [] [] [] "";
                         Fragset false "p" "" [] [] [] "";
                         Fragset false "li" "" [] [] [] ""] !! l.
Proof.
  apply (X10_render_resets_own_objects (combine (Simple 1) ">" (Simple 3))
           [template; Fragset false "ul" "" [] [] [] "";
            Fragset false "p" "" [] [] [] ""; Fragset false "li" "" [] [] [] ""]).
  repeat constructor.
Defined.

Lemma render_reset o : reset o = o -> render o = "".
Proof. by intros <-. Qed.

Lemma stringify_selector_empty x (h : heap) :
  (forall l, l ∈ locs x -> exists o, h !! l = Some o /\ reset o = o) ->
  stringify_selector x h = Some (h, Return (skeleton x)).
Proof.
  induction x as [l0|a IHa b c IHc]; intros He; cbn [locs] in He.
  - destruct (He l0) as (o & Ho & Hr); [by apply list_elem_of_singleton|].
    cbn [stringify_selector skeleton].
    by rewrite (stringify_at h l0 o Ho), Hr, (render_reset o Hr), list_insert_id.
  - cbn [stringify_selector skeleton]. unfold bind.
    rewrite IHa by (intros l Hl; apply He, elem_of_app; by left).
    by rewrite IHc by (intros l Hl; apply He, elem_of_app; by right).
Qed.

(** X11. A selector rendered a second time, nothing added in between,
    gives what is left of it without fragments: the empty string for a
    chain object, and for a combination its combinators between their
    spaces; the second rendering changes nothing in the store. *)
Theorem X11_second_render_is_skeleton x (h : heap) :
  Forall (fun l => l < length h) (locs x) ->
  exists h1 s,
    stringify_selector x h = Some (h1, Return s)
    /\ stringify_selector x h1 = Some (h1, Return (skeleton x)).
Proof.
  intros Hb.
  destruct (stringify_selector_post x h Hb) as (h1 & s & Hs & _ & Hp).
  exists h1, s. split; [done|].
  apply stringify_selector_empty. intros l Hl.
  rewrite list.Forall_forall in Hb.
  destruct (lookup_lt_is_Some_2 h l (Hb l Hl)) as [o Ho].
  exists (reset o). split; [|done].
  rewrite Hp, decide_True by done. by rewrite Ho.
Qed.

Lemma X11_witness :
  exists h1,
    stringify_selector (combine (Simple 1) "+" (Simple 2))
      [template; Fragset false "a" "" [] [] [] "";
       Fragset false "b" "" [] [] [] ""]
    = Some (h1, Return "a + b")
    /\ stringify_selector (combine (Simple 1) "+" (Simple 2)) h1
       = Some (h1, Return " + ").
Proof.
  destruct (X11_second_render_is_skeleton (combine (Simple 1) "+" (Simple 2))
              [template; Fragset false "a" "" [] [] [] "";
               Fragset false "b" "" [] [] [] ""]) as (h1 & s & H1 & H2).
  - repeat constructor.
  - exists h1. split; [|exact H2].
    rewrite H1. vm_compute in H1. by injection H1 as _ <-.
Defined.

(** X12. Nesting combinations to the left or to the right renders the same
    string and leaves the same store: the selectors are rendered from left
    to right in both. *)
Theorem X12_combine_associative A s B t C (h : heap) :
  stringify_selector (combine (combine A s B) t C) h
  = stringify_selector (combine A s (combine B t C)) h.
Proof.
  unfold combine. cbn [stringify_selector]. unfold bind, ret.
  destruct (stringify_selector A h) as [[hA [rA|e]]|]; [|done..].
  destruct (stringify_selector B hA) as [[hB [rB|e]]|]; [|done..].
  destruct (stringify_selector C hB) as [[hC [rC|e]]|]; [|done..].
  by rewrite !append_assoc.
Qed.

Lemma reset_fresh o : isBasic o = false -> reset o = fresh.
Proof. destruct o. cbn. by intros ->. Qed.

(** X13. After [stringify] a chain object is as new: any further chain of
    calls in grammar order on it runs without an exception, returns the
    object, and renders as the same chain started on the builder does. *)
Theorem X13_rendered_object_starts_over (h : heap) l o
    el ident cls ats pcs pe :
  h !! l = Some o -> isBasic o = false ->
  exists h1 h2 h3,
    stringify l h = Some (h1, Return (render o))
    /\ run_chain l (grammar_chain el ident cls ats pcs pe) h1
       = Some (h2, Return l)
    /\ stringify l h2
       = Some (h3, Return (spec_render el ident cls ats pcs pe)).
Proof.
  intros H Hb.
  pose proof (lookup_written h l o fresh H) as H1.
  exists (<[l := fresh]> h),
    (<[l := built el ident cls ats pcs pe]> (<[l := fresh]> h)).
  eexists. split; [|split].
  - by rewrite (stringify_at h l o H), (reset_fresh o Hb).
  - rewrite (run_chain_local _ l fresh _ H1 eq_refl).
    by rewrite steps_grammar_chain.
  - rewrite <- render_built. apply stringify_at.
    by eapply lookup_written.
Qed.

Lemma X13_witness :
  exists h1 h2 h3,
    stringify 1 [template; Fragset false "div" "" ["c"] [] [] ""]
    = Some (h1, Return "div.c")
    /\ run_chain 1 (grammar_chain (Some "p") None [] [] ["hover"] None) h1
       = Some (h2, Return 1)
    /\ stringify 1 h2 = Some (h3, Return "p:hover").
Proof.
  exact (X13_rendered_object_starts_over
           [template; Fragset false "div" "" ["c"] [] [] ""] 1 _
           (Some "p") None [] [] ["hover"] None eq_refl eq_refl).
Defined.

(** ** The JSON bridge *)

Module JSONProperties.
Import JSON.

Local Arguments String.append : simpl nomatch.



(** Numbers *)









(** parse_value, by the first character *)













(** Elements *)


(** Members *)



(** Fields written one after the other *)



(** Sizes *)












(** The text is at least as long as the value is large, so the fuel
    [JSON_parse] takes from the text is enough. *)





(** ** Object.assign onto a new object *)










(** The examples of the source comments. *)
Example getJSON_array :
  getJSON (Array [Number 1; Number 2; Number 3]) = Some "[1,2,3]".
Proof. reflexivity. Qed.

Example fromJSON_circle :
  getJSON (Object Object_prototype [("radius", Number 10)])
    ≫= fromJSON (Prototype "Circle")
  = Some (Object (Prototype "Circle") [("radius", Number 10)]).
Proof. vm_compute. reflexivity. Qed.


(** ** What the bridge keeps of any value *)








End JSONProperties.
